(** * CivIdle: the transport sprite pool and the React hooks

    A shallow embedding of

    - [src/scripts/scenes/TransportPool.ts]: the [TransportPool] subclass of
      [ObjectPool<Sprite>] (constructor, [create], [onAllocate], [onRelease]);
    - [src/scripts/utilities/Hook.ts]: [makeObservableHook], [useTypedEvent],
      [refreshOnTypedEvent] and [useShortcut], and the two shortcuts
      [TechPage] registers with it;
    - the game start-up code: [findSpecialBuildings],
      [verifyBuildingTextures] and the once-a-second timer of [startTicker];
    - the generic [ObjectPool] base class, whose file is not part of the
      sources at hand and is therefore modelled from the specification.

    JavaScript objects are references into a heap: an object is an [ObjId]
    and the heap is a finite map from identities to object contents.  Methods
    are state transformers over the receiver ([this]) and the heap. *)

From Stdlib Require Import QArith.
From stdpp Require Import gmap strings list fin_maps fin_sets.

#[global] Set Warnings "-clear-no-such-hyp".

(** Identity of a JavaScript object (a reference). *)
Abbreviation ObjId := positive (only parsing).

(* ===================================================================== *)
(** ** pixi.js: the part of the display tree the pool touches            *)
(* ===================================================================== *)

Module Pixi.

(** A run-time value that can be handed to the pool as its texture.  The
    TypeScript type says [Texture]; at run time the constructor still checks
    [texture instanceof Texture], so every kind of value has to be
    representable. *)
Inductive JsValue :=
| JsUndefined
| JsNull
| JsTexture (name : string)
| JsObject (o : ObjId).

#[global] Instance JsValue_eq_dec : EqDecision JsValue.
Proof. solve_decision. Defined.

(** [v instanceof Texture] *)
Definition instanceof_Texture (v : JsValue) : bool :=
  match v with
  | JsTexture _ => true
  | _ => false
  end.

(** Number literals are kept as the rationals they denote: the code stores
    them and does no arithmetic on them. *)
Record Point := mkPoint { x : Q; y : Q }.

(** A display object.  In pixi.js [Sprite] extends [Container], so a sprite
    and the container it is attached to live in the same heap and share the
    display fields. *)
Record Sprite := mkSprite {
  texture : JsValue;
  scale : Point;
  anchor : Point;
  alpha : Q;
  position : Point;
  visible : bool;
  parent : option ObjId;
  children : list ObjId
}.

Abbreviation Heap := (gmap ObjId Sprite).

(** [new Sprite(texture)]: pixi's defaults, the given texture, no parent. *)
Definition default_Sprite (tex : JsValue) : Sprite :=
  {| texture := tex;
     scale := mkPoint 1 1;
     anchor := mkPoint 0 0;
     alpha := 1;
     position := mkPoint 0 0;
     visible := true;
     parent := None;
     children := [] |}.

(** [Texture.EMPTY] *)
Definition Texture_EMPTY : JsValue := JsTexture "EMPTY".

(** What the constructor of [Sprite] does with its argument: it stores
    [texture || Texture.EMPTY] and then reads [texture.baseTexture.valid]
    when the argument is truthy.  A [Texture] is stored as it is, [undefined]
    and [null] are replaced by [Texture.EMPTY], and an object that is not a
    [Texture] has no [baseTexture], so the constructor throws a [TypeError]
    ([None]). *)
Definition sprite_texture (tex : JsValue) : option JsValue :=
  match tex with
  | JsTexture _ => Some tex
  | JsUndefined | JsNull => Some Texture_EMPTY
  | JsObject _ => None
  end.

(** [new Sprite(texture)]: a new object in the heap, or [None] when the
    constructor throws; the heap is then as it was. *)
Definition new_Sprite (tex : JsValue) (h : Heap) : option (ObjId * Heap) :=
  t ← sprite_texture tex;
  let o := fresh (dom h) in
  Some (o, <[o := default_Sprite t]> h).

(** Field assignments [o.f = v]. *)
Definition set_alpha (a : Q) (s : Sprite) : Sprite :=
  {| texture := texture s; scale := scale s; anchor := anchor s;
     alpha := a;
     position := position s; visible := visible s;
     parent := parent s; children := children s |}.

Definition set_scale (p : Point) (s : Sprite) : Sprite :=
  {| texture := texture s; scale := p; anchor := anchor s;
     alpha := alpha s;
     position := position s; visible := visible s;
     parent := parent s; children := children s |}.

Definition set_anchor_x (v : Q) (s : Sprite) : Sprite :=
  {| texture := texture s; scale := scale s;
     anchor := mkPoint v (y (anchor s));
     alpha := alpha s;
     position := position s; visible := visible s;
     parent := parent s; children := children s |}.

Definition set_anchor_y (v : Q) (s : Sprite) : Sprite :=
  {| texture := texture s; scale := scale s;
     anchor := mkPoint (x (anchor s)) v;
     alpha := alpha s;
     position := position s; visible := visible s;
     parent := parent s; children := children s |}.

Definition set_parent (p : option ObjId) (s : Sprite) : Sprite :=
  {| texture := texture s; scale := scale s; anchor := anchor s;
     alpha := alpha s;
     position := position s; visible := visible s;
     parent := p; children := children s |}.

Definition push_child (c : ObjId) (s : Sprite) : Sprite :=
  {| texture := texture s; scale := scale s; anchor := anchor s;
     alpha := alpha s;
     position := position s; visible := visible s;
     parent := parent s; children := children s ++ [c] |}.

(** [p.addChild(c)] for a child that has no parent yet: the child's
    [parent] becomes [p], the child is appended to [p.children], and the
    child is returned. *)
Definition addChild (p c : ObjId) (h : Heap) : ObjId * Heap :=
  (c, alter (push_child c) p (alter (set_parent (Some p)) c h)).

(** [console.assert(cond, msg)]: logs [msg] when [cond] is false and
    carries on; it never throws. *)
Definition console_assert (cond : bool) (msg : string)
    (console : list string) : list string :=
  if cond then console else console ++ [msg].

End Pixi.

(* ===================================================================== *)
(** ** ObjectPool<T>: the generic base class                              *)
(* ===================================================================== *)

Module ObjectPool.

(** Modelled from the spec: the state of [ObjectPool] (the file
    utilities/ObjectPool.ts is missing).  Section 3: a pool holds two sets of
    handles to instances, the active ones and the idle ones.  [fields] is
    what a subclass adds to the receiver. *)
Record Pool (C : Type) := mkPool {
  fields : C;
  active : gset ObjId;
  idle : gset ObjId
}.
Arguments mkPool {C} _ _ _.
Arguments fields {C} _.
Arguments active {C} _.
Arguments idle {C} _.

(** The three abstract methods.  Each runs with the receiver and the world
    [W] it may touch, and hands both back. *)
Class Hooks (C W : Type) := {
  create : Pool C → W → ObjId * Pool C * W;
  onAllocate : ObjId → Pool C → W → Pool C * W;
  onRelease : ObjId → Pool C → W → Pool C * W
}.

(** Hook invocations, in order: the instrument the specification uses to
    count constructions. *)
Inductive HookCall :=
| Create (o : ObjId)
| OnAllocate (o : ObjId)
| OnRelease (o : ObjId).

Definition created (cs : list HookCall) : list ObjId :=
  omap (λ c, match c with Create o => Some o | _ => None end) cs.

Record State (C W : Type) := mkState {
  this : Pool C;
  world : W;
  calls : list HookCall
}.
Arguments mkState {C W} _ _ _.
Arguments this {C W} _.
Arguments world {C W} _.
Arguments calls {C W} _.

Definition creations {C W} (st : State C W) : nat :=
  length (created (calls st)).

Definition instances {C} (p : Pool C) : gset ObjId := active p ∪ idle p.

(** Which idle instance is handed out is left open by the specification.
    The choice is an argument of [allocate]: every [n] selects one element
    of a non-empty set, and every element is selected by some [n]. *)
Definition pick (n : nat) (s : gset ObjId) : option ObjId :=
  elements s !! (n mod size s).

Inductive Outcome (C W : Type) :=
| Released (st : State C W)
| AssertionFailed (st : State C W).
Arguments Released {C W} _.
Arguments AssertionFailed {C W} _.

Definition outcome_state {C W} (r : Outcome C W) : State C W :=
  match r with
  | Released st => st
  | AssertionFailed st => st
  end.

Section Operations.
Context {C W : Type} `{!Hooks C W}.

(** Modelled from the spec: a new pool (section 8: zero pre-existing
    instances). *)
Definition new (c : C) (w : W) : State C W :=
  mkState (mkPool c ∅ ∅) w [].

(** Modelled from the spec: [ObjectPool.allocate] (the file
    utilities/ObjectPool.ts is missing).  Section 4.1: if the idle set is
    non-empty, remove and return one instance from it; otherwise construct
    a new instance via the construction hook.  In both cases add the
    instance to the active set and invoke the on-allocate hook on it
    before returning. *)
Definition allocate (n : nat) (st : State C W) : ObjId * State C W :=
  let p := this st in
  match pick n (idle p) with
  | Some o =>
      let p1 := mkPool (fields p) ({[o]} ∪ active p) (idle p ∖ {[o]}) in
      let '(p2, w2) := onAllocate o p1 (world st) in
      (o, mkState p2 w2 (calls st ++ [OnAllocate o]))
  | None =>
      let '(o, p0, w0) := create p (world st) in
      let p1 := mkPool (fields p0) ({[o]} ∪ active p0) (idle p0) in
      let '(p2, w2) := onAllocate o p1 w0 in
      (o, mkState p2 w2 (calls st ++ [Create o; OnAllocate o]))
  end.

(** Modelled from the spec: [ObjectPool.release] (the file
    utilities/ObjectPool.ts is missing).  Section 4.1 and section 8: the
    instance must be in the active set, otherwise the call takes the
    fault path and must not change the sets; otherwise the instance is
    removed from the active set, the on-release hook is invoked, and the
    instance is inserted into the idle set. *)
Definition release (o : ObjId) (st : State C W) : Outcome C W :=
  let p := this st in
  if decide (o ∈ active p) then
    let p1 := mkPool (fields p) (active p ∖ {[o]}) (idle p) in
    let '(p2, w2) := onRelease o p1 (world st) in
    let p3 := mkPool (fields p2) (active p2) ({[o]} ∪ idle p2) in
    Released (mkState p3 w2 (calls st ++ [OnRelease o]))
  else AssertionFailed st.

(** [N] allocations in a row, returning the instances in order. *)
Fixpoint allocate_many (ns : list nat) (st : State C W)
    : list ObjId * State C W :=
  match ns with
  | [] => ([], st)
  | n :: ns' =>
      let '(o, st1) := allocate n st in
      let '(os, st2) := allocate_many ns' st1 in
      (o :: os, st2)
  end.

(** Releases in a row; stops at the first one that faults. *)
Fixpoint release_many (os : list ObjId) (st : State C W) : Outcome C W :=
  match os with
  | [] => Released st
  | o :: os' =>
      match release o st with
      | Released st1 => release_many os' st1
      | AssertionFailed st1 => AssertionFailed st1
      end
  end.

(** States a pool can be in: a new pool, then any sequence of
    [allocate] and [release] calls (a faulting [release] included).  Between
    two calls the rest of the program may change the world, for instance move
    the sprites it holds; objects do not cease to exist.  [live w] is the set
    of objects that exist in [w]. *)
Inductive reachable (live : W → gset ObjId) : State C W → Prop :=
| reachable_new c w : reachable live (new c w)
| reachable_allocate n st :
    reachable live st → reachable live (allocate n st).2
| reachable_release o st :
    reachable live st → reachable live (outcome_state (release o st))
| reachable_world st w' :
    reachable live st → live (world st) ⊆ live w' →
    reachable live (mkState (this st) w' (calls st)).

(** What the specification asks of the hooks: they leave the receiver
    alone (no pool bookkeeping is touched), the construction hook returns
    an object that did not exist before, and no hook removes an object
    from the world. *)
Class Lawful (live : W → gset ObjId) : Prop := {
  create_this p w : (create p w).1.2 = p;
  create_fresh p w : (create p w).1.1 ∉ live w;
  create_live p w : {[(create p w).1.1]} ∪ live w ⊆ live (create p w).2;
  onAllocate_this o p w : (onAllocate o p w).1 = p;
  onAllocate_live o p w : live w ⊆ live (onAllocate o p w).2;
  onRelease_this o p w : (onRelease o p w).1 = p;
  onRelease_live o p w : live w ⊆ live (onRelease o p w).2
}.

(** The pool invariant. *)
Record Inv (live : W → gset ObjId) (st : State C W) : Prop := {
  inv_disjoint : active (this st) ## idle (this st);
  inv_live : instances (this st) ⊆ live (world st);
  inv_created : list_to_set (created (calls st)) = instances (this st);
  inv_nodup : NoDup (created (calls st))
}.

End Operations.

End ObjectPool.

(* ===================================================================== *)
(** ** TransportPool (src/scripts/scenes/TransportPool.ts)                *)
(* ===================================================================== *)

Module TransportPool.
Import Pixi ObjectPool.

Record Fields := mkFields {
  _texture : JsValue;
  _parent : ObjId
}.

Abbreviation TransportPool := (Pool Fields).

(** [public static readonly DefaultAlpha = 0.5] *)
Definition DefaultAlpha : Q := 0.5.

(** [constructor(texture, parent)]: [super()] sets up an empty pool, the
    texture is checked with [console.assert], and both arguments are
    stored. *)
Definition constructor (texture : JsValue) (parent : ObjId)
    (console : list string) : TransportPool * list string :=
  let console1 :=
    console_assert (instanceof_Texture texture) "Texture is not valid" console in
  (mkPool (mkFields texture parent) ∅ ∅, console1).

(** [create()]; [None] when [new Sprite] throws. *)
Definition create (this : TransportPool) (h : Heap)
    : option (ObjId * TransportPool * Heap) :=
  '(s, h1) ← new_Sprite (_texture (fields this)) h;
  let '(visual, h2) := addChild (_parent (fields this)) s h1 in
  let h3 := alter (set_scale (mkPoint 0.15 0.15)) visual h2 in
  let h4 := alter (set_anchor_x 1) visual h3 in
  let h5 := alter (set_anchor_y 0.5) visual h4 in
  Some (visual, this, h5).

(** [create] as [ObjectPool.allocate] invokes it.  The pool as modelled has
    no path for a construction hook that throws (section 7 of the
    specification: the failure propagates to the caller of [allocate]), and
    its hook is a total function.  It is [create] wherever [create] returns.
    Where [create] throws, [allocate] throws as well and there is no state
    to speak of; the hook is given a placeholder there, an unattached sprite,
    and what is proved of a pool through this hook assumes a texture for
    which [create] returns. *)
Definition create_hook (this : TransportPool) (h : Heap)
    : ObjId * TransportPool * Heap :=
  match create this h with
  | Some r => r
  | None =>
      (fresh (dom h), this, <[fresh (dom h) := default_Sprite Texture_EMPTY]> h)
  end.

(** [onAllocate(obj)] *)
Definition onAllocate (obj : ObjId) (this : TransportPool) (h : Heap)
    : TransportPool * Heap :=
  (this, alter (set_alpha DefaultAlpha) obj h).

(** [onRelease(obj)] *)
Definition onRelease (obj : ObjId) (this : TransportPool) (h : Heap)
    : TransportPool * Heap :=
  (this, alter (set_alpha 0) obj h).

#[global] Instance hooks : Hooks Fields Heap :=
  {| ObjectPool.create := create_hook;
     ObjectPool.onAllocate := onAllocate;
     ObjectPool.onRelease := onRelease |}.

(** The objects that exist in a heap. *)
Definition live (h : Heap) : gset ObjId := dom h.

End TransportPool.

(* ===================================================================== *)
(** ** React hooks (src/scripts/utilities/Hook.ts)                        *)
(* ===================================================================== *)

Module Hook.

(** Identity of a function object.  Evaluating a function declaration or an
    arrow function yields a new object each time. *)
Abbreviation FnId := positive (only parsing).

(** *** React's [useEffect] *)

(** What React remembers of an effect between renders: the dependency list
    of the last run and the clean-up that run returned.  [S] is the state the
    effect acts on. *)
Record EffectCell (D S : Type) := mkCell {
  cell_deps : D;
  cell_cleanup : S → S
}.
Arguments mkCell {D S} _ _.
Arguments cell_deps {D S} _.
Arguments cell_cleanup {D S} _.

(** [useEffect(effect, deps)]: on the first render the effect runs; on a
    later render it runs again only when a dependency changed, after the
    previous clean-up. *)
Definition useEffect {D S} `{EqDecision D}
    (effect : S → S * (S → S)) (deps : D)
    (cell : option (EffectCell D S)) (s : S) : option (EffectCell D S) * S :=
  match cell with
  | None =>
      let '(s1, c) := effect s in (Some (mkCell deps c), s1)
  | Some old =>
      if decide (deps = cell_deps old) then (cell, s)
      else
        let '(s1, c) := effect (cell_cleanup old s) in
        (Some (mkCell deps c), s1)
  end.

(** Unmounting the component runs the last clean-up. *)
Definition unmount {D S} (cell : option (EffectCell D S)) (s : S) : S :=
  match cell with
  | Some c => cell_cleanup c s
  | None => s
  end.

(** *** TypedEvent *)

(** Modelled from the spec: [TypedEvent] (shared/utilities/TypedEvent is
    missing).  Sections 6 and 9: a publisher maintains a set of subscriber
    callbacks, kept in registration order; subscribing and unsubscribing are
    idempotent. *)
Record TypedEvent := mkEvent { listeners : list FnId }.

Definition on (l : FnId) (e : TypedEvent) : TypedEvent :=
  if decide (l ∈ listeners e) then e else mkEvent (listeners e ++ [l]).

Definition off (l : FnId) (e : TypedEvent) : TypedEvent :=
  mkEvent (filter (λ l', l' ≠ l) (listeners e)).

(** *** makeObservableHook *)

(** The part of the JavaScript state [observe] touches: the event, and the
    allocator of function objects. *)
Record World := mkWorld {
  event : TypedEvent;
  next_fn : FnId
}.

(** Every registered listener is a function object that already exists. *)
Definition wf_World (w : World) : Prop :=
  Forall (λ l, (l < next_fn w)%positive) (listeners (event w)).

(** The hook state of one component that calls [observe]: the [useState]
    cell and the [useEffect] cell.  The dependency list is
    [[event, handleEvent]], two object identities. *)
Record Observer := mkObserver {
  counter : N;
  effect_cell : option (EffectCell (ObjId * FnId) TypedEvent)
}.

(** [old + 1] on a JavaScript number that holds a count: exact below
    [2^53], where the sum rounds back to [2^53]. *)
Definition js_succ (old : N) : N :=
  if (old <? 2 ^ 53)%N then (old + 1)%N else old.

Section Observable.
Context {T G : Type}.
Variable event_id : ObjId.
Variable getter : G → T.

(** [function handleEvent(data: T): void { setter((old) => old + 1); }] as
    the update it makes to the counter cell. *)
Definition handleEvent (data : T) (old : N) : N := js_succ old.

(** The effect of [observe] for the listener [handle]. *)
Definition observe_effect (handle : FnId) (e : TypedEvent)
    : TypedEvent * (TypedEvent → TypedEvent) :=
  (on handle e, λ e', off handle e').

(** One render of [observe()], with its effect committed.  [inst] is [None]
    on the first render (mount).  [g] is the state [getter] reads. *)
Definition observe (inst : option Observer) (g : G) (w : World)
    : T * Observer * World :=
  let count := match inst with Some i => counter i | None => 0%N end in
  let handle := next_fn w in
  let '(cell, ev) :=
    useEffect (observe_effect handle) (event_id, handle)
      (inst ≫= effect_cell) (event w) in
  (getter g, mkObserver count cell, mkWorld ev (Pos.succ handle)).

Definition unmount_observer (i : Observer) (w : World) : World :=
  mkWorld (unmount (effect_cell i) (event w)) (next_fn w).

End Observable.

(** *** useShortcut *)

(** A value in a [DependencyList]. *)
Inductive Dep :=
| DepString (s : string)
| DepFn (f : FnId)
| DepRef (o : ObjId).

#[global] Instance Dep_eq_dec : EqDecision Dep.
Proof. solve_decision. Defined.

(** Modelled from the spec: the object [getShortcuts()] returns
    (shared/logic/Shortcut is missing).  Section 6: a keyed-callback registry,
    setting and clearing a callback under a string key.  It is one shared
    JavaScript object: a key can be absent, or present with a callback or
    with [undefined] ([Some None]). *)
Abbreviation Shortcuts := (gmap string (option FnId)).

(** [shortcuts[k]] *)
Definition get_shortcut (k : string) (shortcuts : Shortcuts) : option FnId :=
  default None (shortcuts !! k).

(** The function passed to [useEffect] by [useShortcut]. *)
Definition useShortcut_effect (shortcut : string) (callback : FnId)
    (shortcuts : Shortcuts) : Shortcuts * (Shortcuts → Shortcuts) :=
  (<[shortcut := Some callback]> shortcuts,
   λ shortcuts', <[shortcut := None]> shortcuts').

Definition useShortcut (shortcut : string) (callback : FnId) (deps : list Dep)
    (cell : option (EffectCell (list Dep) Shortcuts)) (shortcuts : Shortcuts)
    : option (EffectCell (list Dep) Shortcuts) * Shortcuts :=
  useEffect (useShortcut_effect shortcut callback)
    (DepString shortcut :: DepFn callback :: deps) cell shortcuts.

End Hook.

(* ===================================================================== *)
(** ** A concrete scene                                                   *)
(* ===================================================================== *)

Module Scenario.
Import Pixi ObjectPool.

(** A stage that holds one container, object 1. *)
Definition stage : Heap := {[ 1%positive := default_Sprite JsUndefined ]}.

Definition transport_texture : JsValue := JsTexture "Transport".

(** [new TransportPool(texture, container)] on that stage. *)
Definition pool0 : State TransportPool.Fields Heap :=
  mkState (TransportPool.constructor transport_texture 1 []).1 stage [].

(** [A = allocate(); B = allocate(); release(A); release(B)]: a pool with
    nothing handed out and two idle sprites. *)
Definition A : ObjId := (allocate 0 pool0).1.
Definition pool1 : State TransportPool.Fields Heap := (allocate 0 pool0).2.
Definition B : ObjId := (allocate 0 pool1).1.
Definition pool2 : State TransportPool.Fields Heap := (allocate 0 pool1).2.
Definition pool3 : State TransportPool.Fields Heap :=
  outcome_state (release A pool2).
Definition pool4 : State TransportPool.Fields Heap :=
  outcome_state (release B pool3).

(** An event with two listeners, and function objects 1 to 4 in use. *)
Definition world0 : Hook.World := Hook.mkWorld (Hook.mkEvent [2; 4]%positive) 5.

(** A registry in which the key already has a handler. *)
Definition registry0 : Hook.Shortcuts :=
  {[ "TechPageUnlockTech" := Some 3%positive; "Other" := Some 8%positive ]}.

End Scenario.

(* ===================================================================== *)
(** ** The rest of Hook.ts, and the shortcuts of TechPage                 *)
(* ===================================================================== *)

Module HookMore.
Import Hook.

(** *** React's commit, in two phases

    When a component has several effects, React first runs the clean-ups of
    all effects whose dependencies changed and then runs those effects. *)

Definition commit_cleanup {D S} `{EqDecision D} (deps : D)
    (cell : option (EffectCell D S)) (s : S) : S :=
  match cell with
  | None => s
  | Some old => if decide (deps = cell_deps old) then s else cell_cleanup old s
  end.

Definition commit_effect {D S} `{EqDecision D}
    (effect : S → S * (S → S)) (deps : D)
    (cell : option (EffectCell D S)) (s : S) : option (EffectCell D S) * S :=
  match cell with
  | None =>
      let '(s1, c) := effect s in (Some (mkCell deps c), s1)
  | Some old =>
      if decide (deps = cell_deps old) then (cell, s)
      else let '(s1, c) := effect s in (Some (mkCell deps c), s1)
  end.

(** *** Re-rendering a component that calls [observe] *)

Section ObserveAgain.
Context {T G : Type}.
Variable event_id : ObjId.
Variable getter : G → T.

(** Further renders of a mounted component, one for each state [g] that
    [getter] reads. *)
Fixpoint observe_again (gs : list G) (i : Observer) (w : World)
    : Observer * World :=
  match gs with
  | [] => (i, w)
  | g :: gs' =>
      let '(_, i1, w1) := observe event_id getter (Some i) g w in
      observe_again gs' i1 w1
  end.

End ObserveAgain.

(** The hook state [i] holds a subscription of the listener [l]. *)
Definition subscribed (event_id : ObjId) (l : FnId) (i : Observer) : Prop :=
  ∃ c, effect_cell i = Some c ∧ cell_deps c = (event_id, l) ∧
       ∀ e, cell_cleanup c e = off l e.

(** *** useTypedEvent and refreshOnTypedEvent

    Both take the event as an argument, so it can be a different object from
    one render to the next: the events live in a heap. *)

Abbreviation Events := (gmap ObjId TypedEvent).

(** [() => { event.on(listener); return () => { event.off(listener); }; }] *)
Definition subscribe_effect (event : ObjId) (listener : FnId) (es : Events)
    : Events * (Events → Events) :=
  (alter (on listener) event es, λ es', alter (off listener) event es').

Abbreviation SubscriptionCell := (EffectCell (ObjId * FnId) Events).

(** [useTypedEvent(event, listener)] *)
Definition useTypedEvent (event : ObjId) (listener : FnId)
    (cell : option SubscriptionCell) (es : Events)
    : option SubscriptionCell * Events :=
  useEffect (subscribe_effect event listener) (event, listener) cell es.

(** The cell holds a subscription of [listener] to [event]. *)
Definition subscription (event : ObjId) (listener : FnId)
    (c : SubscriptionCell) : Prop :=
  cell_deps c = (event, listener) ∧
  ∀ es, cell_cleanup c es = alter (off listener) event es.

Record EventWorld := mkEventWorld {
  events : Events;
  next_listener : FnId
}.

(** Every registered listener is a function object that already exists. *)
Definition wf_EventWorld (w : EventWorld) : Prop :=
  ∀ ev e, events w !! ev = Some e →
    Forall (λ l, (l < next_listener w)%positive) (listeners e).

(** The hook state of a component that calls [refreshOnTypedEvent]. *)
Record Refresher := mkRefresher {
  refresh_counter : N;
  refresh_cell : option SubscriptionCell
}.

(** [function listener() { setter((old) => old + 1); }] as the update it
    makes to the counter cell. *)
Definition refresh_listener (old : N) : N := js_succ old.

(** One render of a component that calls [refreshOnTypedEvent(event)], with
    its effect committed. *)
Definition refreshOnTypedEvent (event : ObjId) (inst : option Refresher)
    (w : EventWorld) : Refresher * EventWorld :=
  let count := match inst with Some i => refresh_counter i | None => 0%N end in
  let listener := next_listener w in
  let '(cell, es) :=
    useEffect (subscribe_effect event listener) (event, listener)
      (inst ≫= refresh_cell) (events w) in
  (mkRefresher count cell, mkEventWorld es (Pos.succ listener)).

Fixpoint refresh_again (k : nat) (event : ObjId) (i : Refresher)
    (w : EventWorld) : Refresher * EventWorld :=
  match k with
  | 0 => (i, w)
  | S k' =>
      let '(i1, w1) := refreshOnTypedEvent event (Some i) w in
      refresh_again k' event i1 w1
  end.

(** *** A component that calls useShortcut *)

Abbreviation ShortcutCell := (EffectCell (list Dep) Shortcuts).

(** The cell is the one [useShortcut(k, callback, deps)] leaves behind. *)
Definition shortcut_cell (k : string) (callback : FnId) (deps : list Dep)
    (c : ShortcutCell) : Prop :=
  cell_deps c = DepString k :: DepFn callback :: deps ∧
  ∀ r : Shortcuts, cell_cleanup c r = <[k := None]> r.

(** The component is mounted with its handler in place: the cell is that of
    [useShortcut(k, callback, deps)] and the registry holds [callback]. *)
Definition bound (k : string) (callback : FnId) (deps : list Dep)
    (cell : option ShortcutCell) (shortcuts : Shortcuts) : Prop :=
  (∃ c, cell = Some c ∧ shortcut_cell k callback deps c) ∧
  shortcuts !! k = Some (Some callback).

(** A component's life: one [useShortcut(k, callback, deps)] per render. *)
Fixpoint useShortcut_renders (rs : list (string * FnId * list Dep))
    (cell : option ShortcutCell) (shortcuts : Shortcuts)
    : option ShortcutCell * Shortcuts :=
  match rs with
  | [] => (cell, shortcuts)
  | (k, callback, deps) :: rs' =>
      let '(cell1, s1) := useShortcut k callback deps cell shortcuts in
      useShortcut_renders rs' cell1 s1
  end.

(** *** TechPage: [useShortcut("TechPageGoBackToCity", goBackToCity, [id])]
    and [useShortcut("TechPageUnlockTech", unlock, [id])] *)

Record TechPageCells := mkTechPageCells {
  goBack_cell : option ShortcutCell;
  unlock_cell : option ShortcutCell
}.

(** The two effects of one render of [TechPage({ id })].  [goBackToCity] and
    [unlock] are the arrow functions that render evaluated. *)
Definition TechPage_shortcuts (id : string) (goBackToCity unlock : FnId)
    (inst : option TechPageCells) (shortcuts : Shortcuts)
    : TechPageCells * Shortcuts :=
  let deps1 := DepString "TechPageGoBackToCity" :: DepFn goBackToCity :: [DepString id] in
  let deps2 := DepString "TechPageUnlockTech" :: DepFn unlock :: [DepString id] in
  let s1 := commit_cleanup deps1 (inst ≫= goBack_cell) shortcuts in
  let s2 := commit_cleanup deps2 (inst ≫= unlock_cell) s1 in
  let '(c1, s3) :=
    commit_effect (useShortcut_effect "TechPageGoBackToCity" goBackToCity)
      deps1 (inst ≫= goBack_cell) s2 in
  let '(c2, s4) :=
    commit_effect (useShortcut_effect "TechPageUnlockTech" unlock)
      deps2 (inst ≫= unlock_cell) s3 in
  (mkTechPageCells c1 c2, s4).

Definition TechPage_unmount (cells : TechPageCells) (shortcuts : Shortcuts)
    : Shortcuts :=
  unmount (unlock_cell cells) (unmount (goBack_cell cells) shortcuts).

End HookMore.

(* ===================================================================== *)
(** ** Game start-up: findSpecialBuildings, verifyBuildingTextures and the
       once-a-second timer of startTicker                                 *)
(* ===================================================================== *)

Module Startup.

(** [forEach(obj, func)] of utilities/Helper is not among the sources.  The
    entries of the object are taken in the order [forEach] visits them, each
    one once; the callbacks below return nothing, so no visit ends the
    loop. *)

Section FindSpecialBuildings.
Context {ITileData : Type}.

(** [tile.building?.type]: [None] when the tile has no building. *)
Variable building_type : ITileData → option string.

(** What a failed
    [console.assert(buildings.Headquarter === undefined, "There should be
    only one Headquarter. One =", buildings.Headquarter, "Another = ", tile)]
    prints. *)
Record HeadquarterAssertion := mkAssertion {
  one : ITileData;
  another : ITileData
}.

(** The callback of [forEach(gameState.tiles, (_, tile) => ...)], acting on
    the [buildings] object and the console. *)
Definition visit_tile (tile : ITileData)
    (st : gmap string ITileData * list HeadquarterAssertion)
    : gmap string ITileData * list HeadquarterAssertion :=
  if decide (building_type tile = Some "Headquarter") then
    let console :=
      match st.1 !! "Headquarter" with
      | None => st.2
      | Some hq => st.2 ++ [mkAssertion hq tile]
      end in
    (<["Headquarter" := tile]> st.1, console)
  else st.

Definition findSpecialBuildings (tiles : list (string * ITileData))
    (console : list HeadquarterAssertion)
    : gmap string ITileData * list HeadquarterAssertion :=
  foldl (λ st kt, visit_tile kt.2 st) (∅, console) tiles.

(** The tiles that carry a headquarter, in visiting order. *)
Definition headquarters (tiles : list (string * ITileData)) : list ITileData :=
  filter (λ tile, building_type tile = Some "Headquarter") (tiles.*2).

End FindSpecialBuildings.

Section VerifyBuildingTextures.
Context {Textures City : Type}.

(** Whether [getBuildingTexture(b, textures, city)] is truthy. *)
Variable getBuildingTexture : string → Textures → City → bool.

(** [forEach(Config.Building, (b) => { if (!getBuildingTexture(b, textures,
    city)) console.warn(`Cannot find textures for building ${b}`); })];
    [buildings] are the keys of [Config.Building]. *)
Definition verifyBuildingTextures (buildings : list string)
    (textures : Textures) (city : City) (console : list string)
    : list string :=
  foldl (λ c b,
           if getBuildingTexture b textures city then c
           else c ++ ["Cannot find textures for building " +:+ b])
        console buildings.

End VerifyBuildingTextures.

Section Ticker.
Context {GameState : Type}.

(** [gameState.tick], a count. *)
Variable tick : GameState → N.
Variable tickEverySecond : GameState → GameState.

(** The callback [startTicker] passes to [setInterval(..., 1000)]:
    [tickEverySecond(gameState); if (gameState.tick % 5 == 0) saveGame();].
    The second component counts the calls of [saveGame]. *)
Definition every_second (st : GameState * nat) : GameState * nat :=
  let gs := tickEverySecond st.1 in
  (gs, if (tick gs mod 5 =? 0)%N then S st.2 else st.2).

(** [n] firings of the interval. *)
Definition seconds (n : nat) (st : GameState * nat) : GameState * nat :=
  Nat.iter n every_second st.

End Ticker.

End Startup.

(* ===================================================================== *)
(** ** The life of a TransportPool                                        *)
(* ===================================================================== *)

Module Lifecycle.
Import Pixi ObjectPool.

(** States reached from [start] by [allocate] and [release] calls alone:
    nothing else touches the sprites in between. *)
Inductive pool_run {C W : Type} `{!Hooks C W} (start : State C W)
    : State C W → Prop :=
| run_start : pool_run start start
| run_allocate n st :
    pool_run start st → pool_run start (allocate n st).2
| run_release o st :
    pool_run start st → pool_run start (outcome_state (release o st)).

(** A sprite as [TransportPool.create] sets it up, with opacity [a]. *)
Definition pooled_sprite (texture : JsValue) (parent : ObjId) (a : Q)
    : Sprite :=
  {| texture := texture;
     scale := mkPoint 0.15 0.15;
     anchor := mkPoint 1 0.5;
     alpha := a;
     position := mkPoint 0 0;
     visible := true;
     Pixi.parent := Some parent;
     children := [] |}.

(** The container [c] with [cs] as its list of children. *)
Definition with_children (cs : list ObjId) (c : Sprite) : Sprite :=
  {| texture := texture c; scale := scale c; anchor := anchor c;
     alpha := alpha c;
     position := position c; visible := visible c;
     Pixi.parent := Pixi.parent c; children := cs |}.


(** States reached from [start] when other code runs between the calls of
    [allocate] and [release].  That code may create objects and change any
    object except the pool's sprites and the parent container [p]; no object
    ceases to exist. *)
Inductive pool_run_among (p : ObjId)
    (start : State TransportPool.Fields Heap)
    : State TransportPool.Fields Heap → Prop :=
| among_start : pool_run_among p start start
| among_allocate n st :
    pool_run_among p start st → pool_run_among p start (allocate n st).2
| among_release o st :
    pool_run_among p start st →
    pool_run_among p start (outcome_state (release o st))
| among_other st h' :
    pool_run_among p start st →
    dom (world st) ⊆ dom h' →
    (∀ o, o ∈ instances (this st) → h' !! o = world st !! o) →
    h' !! p = world st !! p →
    pool_run_among p start (mkState (this st) h' (calls st)).

(** What holds of the parent container of a pool, created on the heap [h0]
    with the container [p], along such a run. *)
Record AttachInv (texture : JsValue) (p : ObjId) (h0 : Heap) (c0 : Sprite)
    (st : State TransportPool.Fields Heap) : Prop := {
  attach_fields : fields (this st) = TransportPool.mkFields texture p;
  attach_parent :
    world st !! p = Some (with_children (children c0 ++ created (calls st)) c0);
  attach_old : dom h0 ⊆ dom (world st);
  attach_new : instances (this st) ## dom h0
}.

End Lifecycle.

(* ===================================================================== *)
(** ** More of the concrete scene                                         *)
(* ===================================================================== *)

Module Scene.
Import Hook HookMore.

(** Two events, the first one with a listener of a mounted component. *)
Definition events0 : EventWorld :=
  mkEventWorld {[ 1%positive := mkEvent [2; 3]%positive;
                  2%positive := mkEvent [4]%positive ]} 5.

(** The hook state of the component that registered listener 3 on event 1. *)
Definition cell0 : SubscriptionCell :=
  mkCell (1%positive, 3%positive) (λ es, alter (off 3) 1%positive es).

Definition refresher0 : Refresher := mkRefresher 0 (Some cell0).

(** The hook state of the component that registered handler 3 under
    "TechPageUnlockTech" in [Scenario.registry0]. *)
Definition shortcut_cell0 : ShortcutCell :=
  mkCell [DepString "TechPageUnlockTech"; DepFn 3]
    (λ r : Shortcuts, <["TechPageUnlockTech" := None]> r).

(** Between two allocations other code adds an object, 9, to the heap. *)
Definition pool1_other : ObjectPool.State TransportPool.Fields Pixi.Heap :=
  ObjectPool.mkState (ObjectPool.this Scenario.pool1)
    (<[9%positive := Pixi.default_Sprite Pixi.JsUndefined]>
       (ObjectPool.world Scenario.pool1))
    (ObjectPool.calls Scenario.pool1).

Definition pool1_then : ObjectPool.State TransportPool.Fields Pixi.Heap :=
  (ObjectPool.allocate 0 pool1_other).2.

End Scene.

(* ===================================================================== *)
(** * Properties of the generic pool                                      *)
(* ===================================================================== *)

Section PoolFacts.
Import ObjectPool.
Context {C W : Type} `{!Hooks C W}.

Implicit Types (st : State C W) (o : ObjId) (n : nat) (s : gset ObjId).

(** ** The selection of an idle instance *)

Lemma pick_elem_of n s o : pick n s = Some o → o ∈ s.
Proof.
  unfold pick. intros Hl.
  apply elem_of_elements, list_elem_of_lookup. by exists (n mod size s).
Qed.

Lemma pick_is_Some n s : s ≠ ∅ → is_Some (pick n s).
Proof.
  intros Hne. unfold pick. apply lookup_lt_is_Some.
  assert (size s ≠ 0) as Hsz.
  { intros Hz. apply Hne. by apply size_empty_iff, leibniz_equiv in Hz. }
  change (length (elements s)) with (size s).
  apply Nat.mod_upper_bound. done.
Qed.

Lemma pick_None n s : pick n s = None → s = ∅.
Proof.
  intros Hp. destruct (decide (s = ∅)) as [|Hne]; [done|].
  destruct (pick_is_Some n s Hne) as [o Ho]. congruence.
Qed.

Lemma pick_empty n : pick n ∅ = None.
Proof. unfold pick. by rewrite elements_empty. Qed.

(** No idle instance is excluded: each one is the choice of some [n]. *)
Lemma pick_complete s o : o ∈ s → ∃ n, pick n s = Some o.
Proof.
  intros Ho. apply elem_of_elements, list_elem_of_lookup in Ho as [i Hi].
  exists i. unfold pick.
  assert (i < size s) as Hlt by (apply lookup_lt_Some in Hi; done).
  by rewrite Nat.mod_small.
Qed.

Lemma created_app cs cs' : created (cs ++ cs') = created cs ++ created cs'.
Proof. unfold created. apply omap_app. Qed.

(** ** What one call does

    With lawful hooks [allocate] has two cases, told apart by the idle set,
    and [release] has two cases, told apart by the active set. *)

Context (live : W → gset ObjId) `{!Lawful live}.

Lemma allocate_reuse n st o :
  pick n (idle (this st)) = Some o →
  (allocate n st).1 = o ∧
  this (allocate n st).2 =
    mkPool (fields (this st)) ({[o]} ∪ active (this st)) (idle (this st) ∖ {[o]}) ∧
  calls (allocate n st).2 = calls st ++ [OnAllocate o] ∧
  live (world st) ⊆ live (world (allocate n st).2).
Proof.
  intros Hp. unfold allocate. rewrite Hp.
  set (p1 := mkPool _ _ _).
  pose proof (onAllocate_this o p1 (world st)) as Ht.
  pose proof (onAllocate_live o p1 (world st)) as Hl.
  destruct (onAllocate o p1 (world st)) as [p2 w2]. simpl in *. by subst p2.
Qed.

Lemma allocate_grow n st :
  idle (this st) = ∅ →
  let o := (allocate n st).1 in
  (o ∉ live (world st)) ∧
  this (allocate n st).2 =
    mkPool (fields (this st)) ({[o]} ∪ active (this st)) ∅ ∧
  calls (allocate n st).2 = calls st ++ [Create o; OnAllocate o] ∧
  {[o]} ∪ live (world st) ⊆ live (world (allocate n st).2).
Proof.
  intros He. unfold allocate. rewrite He, pick_empty.
  pose proof (create_this (this st) (world st)) as Ht.
  pose proof (create_fresh (this st) (world st)) as Hf.
  pose proof (create_live (this st) (world st)) as Hl.
  destruct (create (this st) (world st)) as [[o p0] w0]. simpl in *. subst p0.
  rewrite He. set (p1 := mkPool _ _ _).
  pose proof (onAllocate_this o p1 w0) as Ht'.
  pose proof (onAllocate_live o p1 w0) as Hl'.
  destruct (onAllocate o p1 w0) as [p2 w2]. simpl in *. subst p2.
  repeat split; [done | by etrans].
Qed.

Lemma release_active o st :
  o ∈ active (this st) →
  ∃ st', release o st = Released st' ∧
    this st' =
      mkPool (fields (this st)) (active (this st) ∖ {[o]}) ({[o]} ∪ idle (this st)) ∧
    calls st' = calls st ++ [OnRelease o] ∧
    live (world st) ⊆ live (world st').
Proof.
  intros Ha. unfold release. rewrite decide_True by done.
  set (p1 := mkPool _ _ _).
  pose proof (onRelease_this o p1 (world st)) as Ht.
  pose proof (onRelease_live o p1 (world st)) as Hl.
  destruct (onRelease o p1 (world st)) as [p2 w2]. simpl in *. subst p2.
  eexists. split; [done|]. done.
Qed.

Lemma release_not_active o st :
  o ∉ active (this st) → release o st = AssertionFailed st.
Proof. intros Ha. unfold release. by rewrite decide_False. Qed.

End PoolFacts.

(** ** The invariant holds in every reachable state *)

Section PoolInvariant.
Import ObjectPool.
Context {C W : Type} `{!Hooks C W}.
Context (live : W → gset ObjId) `{!Lawful live}.

Implicit Types (st : State C W) (o : ObjId) (n : nat).

Lemma Inv_new (c : C) (w : W) : Inv live (new c w).
Proof.
  split; simpl; unfold instances; simpl.
  - set_solver.
  - set_solver.
  - set_solver.
  - constructor.
Qed.

Lemma Inv_allocate n st : Inv live st → Inv live (allocate n st).2.
Proof.
  intros [Hd Hl Hc Hn]. unfold instances in *.
  destruct (pick n (idle (this st))) as [o|] eqn:Hp.
  - destruct (allocate_reuse live n st o Hp) as (_ & Ht & Hcs & Hw).
    apply pick_elem_of in Hp.
    split; unfold instances; rewrite ?Ht, ?Hcs, ?created_app; simpl;
      rewrite ?app_nil_r.
    + set_solver.
    + set_solver.
    + rewrite Hc. apply set_eq. intros a.
      destruct (decide (a = o)); set_solver.
    + done.
  - apply pick_None in Hp.
    destruct (allocate_grow live n st Hp) as (Hf & Ht & Hcs & Hw).
    set (o := (allocate n st).1) in *.
    assert (o ∉ active (this st) ∪ idle (this st)) as Hfresh by set_solver.
    split; unfold instances; rewrite ?Ht, ?Hcs, ?created_app; simpl.
    + set_solver.
    + set_solver.
    + rewrite list_to_set_app_L, Hc, Hp. set_solver.
    + apply NoDup_app. split_and!; [done | | apply NoDup_singleton].
      intros a Ha ->%list_elem_of_singleton.
      apply Hfresh. rewrite <- Hc. by apply elem_of_list_to_set.
Qed.

Lemma Inv_release o st : Inv live st → Inv live (outcome_state (release o st)).
Proof.
  intros HI. destruct (decide (o ∈ active (this st))) as [Ha|Ha].
  - destruct (release_active live o st Ha) as (st' & -> & Ht & Hcs & Hw).
    destruct HI as [Hd Hl Hc Hn]. unfold instances in *. simpl.
    split; unfold instances; rewrite ?Ht, ?Hcs, ?created_app; simpl;
      rewrite ?app_nil_r.
    + set_solver.
    + set_solver.
    + rewrite Hc. apply set_eq. intros a.
      destruct (decide (a = o)); set_solver.
    + done.
  - by rewrite release_not_active.
Qed.

Lemma reachable_Inv st : reachable live st → Inv live st.
Proof.
  induction 1 as [c w | n st _ IH | o st _ IH | st w' _ IH Hw].
  - apply Inv_new.
  - by apply Inv_allocate.
  - by apply Inv_release.
  - destruct IH as [Hd Hl Hc Hn]. split; simpl; [done | | done | done].
    by etrans.
Qed.

(** The instance [allocate] returns was not active before the call and is
    active after it. *)
Lemma allocate_not_active n st :
  Inv live st → (allocate n st).1 ∉ active (this st).
Proof.
  intros [Hd Hl _ _]. unfold instances in *.
  destruct (pick n (idle (this st))) as [o|] eqn:Hp.
  - destruct (allocate_reuse live n st o Hp) as (-> & _).
    apply pick_elem_of in Hp. set_solver.
  - apply pick_None in Hp.
    destruct (allocate_grow live n st Hp) as (Hf & _). set_solver.
Qed.

Lemma allocate_active n st :
  active (this (allocate n st).2) = {[(allocate n st).1]} ∪ active (this st).
Proof.
  destruct (pick n (idle (this st))) as [o|] eqn:Hp.
  - destruct (allocate_reuse live n st o Hp) as (-> & -> & _). done.
  - apply pick_None in Hp.
    destruct (allocate_grow live n st Hp) as (_ & -> & _). done.
Qed.

(** The idle set loses the returned instance and nothing else. *)
Lemma allocate_idle n st :
  idle (this (allocate n st).2) = idle (this st) ∖ {[(allocate n st).1]}.
Proof.
  destruct (pick n (idle (this st))) as [o|] eqn:Hp.
  - destruct (allocate_reuse live n st o Hp) as (-> & -> & _). done.
  - apply pick_None in Hp.
    destruct (allocate_grow live n st Hp) as (_ & -> & _). simpl.
    rewrite Hp. set_solver.
Qed.

Lemma allocate_idle_size n st :
  size (idle (this (allocate n st).2)) = size (idle (this st)) - 1.
Proof.
  destruct (pick n (idle (this st))) as [o|] eqn:Hp.
  - destruct (allocate_reuse live n st o Hp) as (_ & -> & _). simpl.
    apply pick_elem_of in Hp.
    rewrite size_difference by set_solver. by rewrite size_singleton.
  - apply pick_None in Hp.
    destruct (allocate_grow live n st Hp) as (_ & -> & _). simpl.
    by rewrite Hp, size_empty.
Qed.

End PoolInvariant.

(** ** Runs of allocations and of releases *)

Section PoolRuns.
Import ObjectPool.
Context {C W : Type} `{!Hooks C W}.
Context (live : W → gset ObjId) `{!Lawful live}.

Implicit Types (st : State C W) (o : ObjId) (n : nat).

Lemma allocate_many_cons n (ns : list nat) st :
  allocate_many (n :: ns) st =
    ((allocate n st).1 :: (allocate_many ns (allocate n st).2).1,
     (allocate_many ns (allocate n st).2).2).
Proof.
  simpl. destruct (allocate n st) as [o st1]. simpl.
  by destruct (allocate_many ns st1) as [os st2].
Qed.

Lemma allocate_many_spec (ns : list nat) st :
  Inv live st →
  Inv live (allocate_many ns st).2 ∧
  NoDup (allocate_many ns st).1 ∧
  (∀ o, o ∈ (allocate_many ns st).1 → o ∉ active (this st)) ∧
  active (this (allocate_many ns st).2) =
    list_to_set (allocate_many ns st).1 ∪ active (this st) ∧
  size (idle (this (allocate_many ns st).2)) =
    size (idle (this st)) - length ns ∧
  length (allocate_many ns st).1 = length ns.
Proof.
  revert st. induction ns as [|n ns IH]; intros st HI.
  - simpl. split_and!; [done | constructor | set_solver | set_solver | lia | done].
  - rewrite allocate_many_cons. simpl.
    pose proof (Inv_allocate live n st HI) as HI1.
    pose proof (allocate_not_active live n st HI) as Hna.
    pose proof (allocate_active live n st) as Hact.
    pose proof (allocate_idle_size live n st) as Hsz.
    destruct (IH _ HI1) as (HI2 & Hnd & Hnew & Hact2 & Hsz2 & Hlen).
    set (o := (allocate n st).1) in *.
    set (st1 := (allocate n st).2) in *.
    split_and!.
    + done.
    + constructor; [|done]. intros Ho. apply (Hnew o Ho).
      rewrite Hact. set_solver.
    + intros a [->|Ha]%elem_of_cons; [done|].
      specialize (Hnew a Ha). rewrite Hact in Hnew. set_solver.
    + rewrite Hact2, Hact. set_solver.
    + rewrite Hsz2, Hsz. lia.
    + by rewrite Hlen.
Qed.

Lemma release_many_spec (os : list ObjId) st :
  Inv live st → NoDup os → (∀ o, o ∈ os → o ∈ active (this st)) →
  ∃ st', release_many os st = Released st' ∧ Inv live st' ∧
    active (this st') = active (this st) ∖ list_to_set os ∧
    idle (this st') = list_to_set os ∪ idle (this st).
Proof.
  revert st. induction os as [|o os IH]; intros st HI Hnd Hin.
  - exists st. simpl. split_and!; [done | done | set_solver | set_solver].
  - apply NoDup_cons in Hnd as [Hno Hnd].
    destruct (release_active live o st) as (st1 & Hr & Ht & _).
    { apply Hin. set_solver. }
    pose proof (Inv_release live o st HI) as HI1. rewrite Hr in HI1.
    simpl in HI1.
    destruct (IH st1 HI1 Hnd) as (st' & Hrm & HI' & Ha' & Hi').
    { intros a Ha. rewrite Ht. simpl.
      apply elem_of_difference. split; [apply Hin; set_solver|].
      intros ->%elem_of_singleton. done. }
    exists st'. simpl. rewrite Hr. split_and!; [done | done | |].
    + rewrite Ha', Ht. simpl. set_solver.
    + rewrite Hi', Ht. simpl. set_solver.
Qed.

End PoolRuns.

(* ===================================================================== *)
(** * TransportPool's hooks                                               *)
(* ===================================================================== *)

Section TransportPoolFacts.
Import Pixi ObjectPool.

Implicit Types (this : Pool TransportPool.Fields) (h : Heap) (o : ObjId).

(** [create] for a pool whose texture is a [Texture]. *)
Lemma TransportPool_create_unfold this h :
  instanceof_Texture (TransportPool._texture (fields this)) = true →
  TransportPool.create this h =
    Some
      (let o := fresh (dom h) in
       let c := TransportPool._parent (fields this) in
       (o, this,
        alter (set_anchor_y 0.5) o
          (alter (set_anchor_x 1) o
             (alter (set_scale (mkPoint 0.15 0.15)) o
                (alter (push_child o) c
                   (alter (set_parent (Some c)) o
                      (<[o := default_Sprite (TransportPool._texture (fields this))]> h))))))).
Proof.
  intros Hv. unfold TransportPool.create, new_Sprite.
  by destruct (TransportPool._texture (fields this)).
Qed.

(** The hook is [create] wherever [create] returns. *)
Lemma TransportPool_create_hook_returns this h r :
  TransportPool.create this h = Some r → TransportPool.create_hook this h = r.
Proof. intros Hr. unfold TransportPool.create_hook. by rewrite Hr. Qed.

Lemma TransportPool_create_hook_unfold this h :
  instanceof_Texture (TransportPool._texture (fields this)) = true →
  TransportPool.create_hook this h =
    let o := fresh (dom h) in
    let c := TransportPool._parent (fields this) in
    (o, this,
     alter (set_anchor_y 0.5) o
       (alter (set_anchor_x 1) o
          (alter (set_scale (mkPoint 0.15 0.15)) o
             (alter (push_child o) c
                (alter (set_parent (Some c)) o
                   (<[o := default_Sprite (TransportPool._texture (fields this))]> h)))))).
Proof.
  intros Hv. apply TransportPool_create_hook_returns.
  by apply TransportPool_create_unfold.
Qed.

Lemma TransportPool_create_dom this h :
  (TransportPool.create_hook this h).1.1 = fresh (dom h) ∧
  (TransportPool.create_hook this h).1.2 = this ∧
  dom (TransportPool.create_hook this h).2 = {[fresh (dom h)]} ∪ dom h.
Proof.
  unfold TransportPool.create_hook, TransportPool.create, new_Sprite.
  destruct (TransportPool._texture (fields this)); simpl;
    by rewrite ?dom_alter_L, dom_insert_L.
Qed.

(** The hooks of [TransportPool] are lawful: they never touch the receiver,
    [create] returns an object that was not in the heap, and no hook removes
    an object from the heap. *)
#[global] Instance TransportPool_lawful : Lawful TransportPool.live.
Proof.
  split; unfold TransportPool.live.
  - intros p h. apply TransportPool_create_dom.
  - intros p h. simpl.
    destruct (TransportPool_create_dom p h) as (-> & _). apply is_fresh.
  - intros p h. simpl.
    destruct (TransportPool_create_dom p h) as (-> & _ & ->). done.
  - done.
  - intros o p h. simpl. by rewrite dom_alter_L.
  - done.
  - intros o p h. simpl. by rewrite dom_alter_L.
Qed.

Lemma Scenario_pool4_reachable :
  reachable TransportPool.live Scenario.pool4.
Proof.
  unfold Scenario.pool4, Scenario.pool3, Scenario.pool2, Scenario.pool1.
  do 2 apply reachable_release. do 2 apply reachable_allocate.
  apply (reachable_new _ (TransportPool.mkFields Scenario.transport_texture 1)).
Qed.

End TransportPoolFacts.

(* ===================================================================== *)
(** * The pool's contract                                                 *)
(* ===================================================================== *)

Section PoolContract.
Import ObjectPool.
Context {C W : Type} `{!Hooks C W}.
Context (live : W → gset ObjId) `{!Lawful live}.

Implicit Types (st : State C W) (o : ObjId) (n : nat).

(** C1 (reuse before growth).  In any pool state, when the idle set is not
    empty [allocate] returns one of its elements, removes it from the idle
    set and does not invoke the construction hook; when the idle set is empty
    the construction hook is invoked exactly once, for the returned instance.
    Hence a successful [release] followed by one [allocate] leaves the number
    of constructions unchanged and hands out an idle instance.  In a reachable
    state no instance occurs twice among the constructed ones. *)
Theorem allocate_reuses_before_growing st n :
  (idle (this st) ≠ ∅ →
     (allocate n st).1 ∈ idle (this st) ∧
     idle (this (allocate n st).2) = idle (this st) ∖ {[(allocate n st).1]} ∧
     created (calls (allocate n st).2) = created (calls st) ∧
     creations (allocate n st).2 = creations st) ∧
  (idle (this st) = ∅ →
     created (calls (allocate n st).2) = created (calls st) ++ [(allocate n st).1] ∧
     creations (allocate n st).2 = S (creations st)) ∧
  (∀ o st1, release o st = Released st1 →
     (allocate n st1).1 ∈ idle (this st1) ∧
     creations (allocate n st1).2 = creations st) ∧
  (reachable live st →
     NoDup (created (calls st)) ∧ NoDup (created (calls (allocate n st).2))).
Proof.
  split_and!.
  - intros Hne. destruct (pick_is_Some n _ Hne) as [o Hp].
    destruct (allocate_reuse live n st o Hp) as (Ho & Ht & Hcs & _).
    unfold creations. rewrite Ho, Ht, Hcs, created_app. simpl.
    rewrite app_nil_r. apply pick_elem_of in Hp. done.
  - intros He. destruct (allocate_grow live n st He) as (_ & _ & Hcs & _).
    unfold creations. rewrite Hcs, created_app. simpl.
    split; [done|]. rewrite length_app. simpl. lia.
  - intros o st1 Hr.
    destruct (decide (o ∈ active (this st))) as [Ha|Ha];
      [|rewrite release_not_active in Hr by done; discriminate].
    destruct (release_active live o st Ha) as (st' & Hr' & Ht & Hcs & _).
    rewrite Hr in Hr'. injection Hr' as <-.
    assert (idle (this st1) ≠ ∅) as Hne by (rewrite Ht; simpl; set_solver).
    destruct (pick_is_Some n _ Hne) as [o' Hp].
    destruct (allocate_reuse live n st1 o' Hp) as (Ho & _ & Hcs' & _).
    unfold creations. rewrite Ho, Hcs', Hcs, !created_app. simpl.
    rewrite !app_nil_r. apply pick_elem_of in Hp. done.
  - intros Hr. split; apply (inv_nodup live), (reachable_Inv live); [done|].
    by apply reachable_allocate.
Qed.

(** C2 (no double allocation, no aliasing).  In a reachable state the
    instance [allocate] returns is not in the active set, and the next
    [allocate], with no [release] in between, returns a different one. *)
Theorem allocate_never_aliases st n m :
  reachable live st →
  ((allocate n st).1 ∉ active (this st)) ∧
  ((allocate m (allocate n st).2).1 ≠ (allocate n st).1).
Proof.
  intros Hr. split.
  - apply (allocate_not_active live), (reachable_Inv live), Hr.
  - intros Heq.
    apply (allocate_not_active live m (allocate n st).2).
    + apply (reachable_Inv live). by apply reachable_allocate.
    + rewrite Heq, (allocate_active live). set_solver.
Qed.

(** C3 (the two sets partition the instances).  In a reachable state the
    active and the idle set are disjoint; an instance was constructed by the
    pool exactly when it is in one of them, and then it is in exactly one;
    [allocate] and [release] never remove an instance from the union, and
    every instance still exists in the world. *)
Theorem active_idle_partition st :
  reachable live st →
  active (this st) ## idle (this st) ∧
  (∀ o, o ∈ created (calls st) ↔ o ∈ active (this st) ∪ idle (this st)) ∧
  (∀ o, o ∈ created (calls st) →
     (o ∈ active (this st) ∧ o ∉ idle (this st)) ∨
     ((o ∉ active (this st)) ∧ o ∈ idle (this st))) ∧
  (∀ n, instances (this st) ⊆ instances (this (allocate n st).2)) ∧
  (∀ o, instances (this (outcome_state (release o st))) = instances (this st)) ∧
  instances (this st) ⊆ live (world st).
Proof.
  intros Hr. destruct (reachable_Inv live st Hr) as [Hd Hl Hc Hn].
  unfold instances in *.
  assert (∀ o, o ∈ created (calls st) ↔ o ∈ active (this st) ∪ idle (this st))
    as Hiff.
  { intros o. rewrite <- Hc. by rewrite elem_of_list_to_set. }
  split_and!; [done | done | | | | done].
  - intros o Ho%Hiff. set_solver.
  - intros n. rewrite (allocate_active live), (allocate_idle live).
    clear. intros a Ha.
    destruct (decide (a = (allocate n st).1)); set_solver.
  - intros o. destruct (decide (o ∈ active (this st))) as [Ha|Ha].
    + destruct (release_active live o st Ha) as (st' & -> & Ht & _). simpl.
      rewrite Ht. simpl. clear -Ha. apply set_eq. intros a. destruct (decide (a = o)); set_solver.
    + by rewrite release_not_active.
Qed.

(** C4, as amended (allocate-then-release round trip).  From a reachable
    state with nothing handed out, [N] allocations followed by the release of
    the [N] instances in any order all succeed, leave the active set empty,
    and leave as many idle instances as the larger of [N] and the number that
    were idle at the start; that is [N] when at most [N] were idle at the
    start, as in a new pool. *)
Theorem round_trip_sizes st (ns : list nat) (ys : list ObjId) :
  reachable live st → active (this st) = ∅ →
  ys ≡ₚ (allocate_many ns st).1 →
  ∃ st', release_many ys (allocate_many ns st).2 = Released st' ∧
    size (active (this st')) = 0 ∧
    size (idle (this st')) = length ns `max` size (idle (this st)) ∧
    (size (idle (this st)) ≤ length ns → size (idle (this st')) = length ns).
Proof.
  intros Hr Hact Hperm.
  destruct (allocate_many_spec live ns st (reachable_Inv live st Hr))
    as (HI1 & Hnd & _ & Hact1 & Hsz1 & Hlen).
  set (xs := (allocate_many ns st).1) in *.
  set (st1 := (allocate_many ns st).2) in *.
  destruct (release_many_spec live ys st1 HI1) as (st' & Hrm & HI' & Ha' & Hi').
  { by rewrite Hperm. }
  { intros o Ho. rewrite Hact1. rewrite Hperm in Ho. set_solver. }
  assert (list_to_set ys ## idle (this st1)) as Hdisj.
  { pose proof (inv_disjoint live st1 HI1) as Hd. rewrite Hact1 in Hd.
    intros o Ho. rewrite elem_of_list_to_set, Hperm in Ho. set_solver. }
  assert (size (idle (this st')) = length ns `max` size (idle (this st)))
    as Hsize.
  { rewrite Hi', size_union by done.
    rewrite size_list_to_set by (by rewrite Hperm).
    rewrite Hsz1, Hperm, Hlen. lia. }
  exists st'. split_and!; [done | | done | lia].
  rewrite Ha', Hact1, Hact. apply size_empty_iff.
  intros o. rewrite elem_of_difference, elem_of_list_to_set, Hperm.
  set_solver.
Qed.

(** C5 (invalid release rejected).  Releasing an instance that is not in the
    active set takes the fault path and returns the state as it was.
    Releasing an active instance moves it from the active to the idle set and
    invokes the on-release hook on it, once; releasing it a second time
    faults.  In a reachable state an instance the pool never constructed is
    not active, so releasing it faults. *)
Theorem release_checks_active st o :
  (o ∉ active (this st) →
     release o st = AssertionFailed st ∧ outcome_state (release o st) = st) ∧
  (o ∈ active (this st) →
     ∃ st', release o st = Released st' ∧
       active (this st') = active (this st) ∖ {[o]} ∧
       idle (this st') = {[o]} ∪ idle (this st) ∧
       calls st' = calls st ++ [OnRelease o] ∧
       release o st' = AssertionFailed st') ∧
  (reachable live st → o ∉ created (calls st) →
     release o st = AssertionFailed st).
Proof.
  split_and!.
  - intros Ha. by rewrite release_not_active.
  - intros Ha. destruct (release_active live o st Ha) as (st' & Hr & Ht & Hcs & _).
    exists st'. rewrite Ht. simpl. split_and!; [done..|].
    apply release_not_active. rewrite Ht. simpl. set_solver.
  - intros Hr Hnc. apply release_not_active. intros Ha. apply Hnc.
    apply (elem_of_list_to_set (C:=gset ObjId)).
    rewrite (inv_created live st (reachable_Inv live st Hr)).
    unfold instances. set_solver.
Qed.

End PoolContract.

(* ===================================================================== *)
(** * The contract on the concrete scene                                  *)
(* ===================================================================== *)

Section PoolOnScene.
Import Pixi ObjectPool Scenario.

Lemma Scenario_pool3_reachable : reachable TransportPool.live pool3.
Proof.
  unfold pool3, pool2, pool1.
  apply reachable_release. do 2 apply reachable_allocate.
  apply (reachable_new _ (TransportPool.mkFields transport_texture 1)).
Qed.

Lemma Scenario_pool2_reachable : reachable TransportPool.live pool2.
Proof.
  unfold pool2, pool1. do 2 apply reachable_allocate.
  apply (reachable_new _ (TransportPool.mkFields transport_texture 1)).
Qed.

(** The scenario of section 8 of the specification: a new pool, [allocate]
    returns [A] (one construction), [allocate] returns [B], different from
    [A] (two constructions), [release(A)], and [allocate] returns [A] again
    with the construction count still at two. *)
Example concrete_scenario :
  creations pool0 = 0 ∧ creations pool1 = 1 ∧ B ≠ A ∧ creations pool2 = 2 ∧
  release A pool2 = Released pool3 ∧
  (allocate 0 pool3).1 = A ∧ creations (allocate 0 pool3).2 = 2.
Proof. split_and!; try reflexivity. vm_compute. discriminate. Qed.

(** With [A] idle and [B] active, [allocate] hands out [A] again and the
    construction count stays at two. *)
Lemma allocate_reuses_before_growing_witness :
  (allocate 0 pool3).1 = A ∧ A ∈ idle (this pool3) ∧
  creations (allocate 0 pool3).2 = 2.
Proof.
  destruct (allocate_reuses_before_growing TransportPool.live pool3 0)
    as (Hreuse & _).
  destruct Hreuse as (Hin & _ & _ & Hcount).
  - intros He. apply (f_equal size) in He. vm_compute in He. discriminate.
  - split; [reflexivity|]. split; [exact Hin|exact Hcount].
Defined.

Lemma allocate_never_aliases_witness :
  reachable TransportPool.live pool3 ∧
  ((allocate 0 pool3).1 ∉ active (this pool3)) ∧
  ((allocate 0 (allocate 0 pool3).2).1 ≠ (allocate 0 pool3).1).
Proof.
  split; [exact Scenario_pool3_reachable|].
  exact (allocate_never_aliases TransportPool.live pool3 0 0
           Scenario_pool3_reachable).
Defined.

Lemma active_idle_partition_witness :
  reachable TransportPool.live pool3 ∧ active (this pool3) ## idle (this pool3) ∧
  instances (this pool3) ⊆ dom (world pool3).
Proof.
  split; [exact Scenario_pool3_reachable|].
  destruct (active_idle_partition TransportPool.live pool3
              Scenario_pool3_reachable) as (Hd & _ & _ & _ & _ & Hl).
  split; [exact Hd|exact Hl].
Defined.

(** C4 as stated fails: [pool4] has nothing handed out and two idle sprites;
    one allocation followed by one release leaves two idle sprites, not
    one. *)
Lemma round_trip_counterexample :
  ¬ (∀ (st : State TransportPool.Fields Heap) (ns : list nat) (ys : list ObjId),
       reachable TransportPool.live st → active (this st) = ∅ →
       ys ≡ₚ (allocate_many ns st).1 →
       ∃ st', release_many ys (allocate_many ns st).2 = Released st' ∧
         size (idle (this st')) = length ns ∧
         size (active (this st')) = 0).
Proof.
  intros Hclaim.
  destruct (Hclaim pool4 [0] [B]) as (st' & Hrel & Hidle & _).
  - exact Scenario_pool4_reachable.
  - vm_compute. reflexivity.
  - vm_compute. reflexivity.
  - assert (size (idle (this (outcome_state
              (release_many [B] (allocate_many [0] pool4).2)))) = 2) as Htwo
      by (vm_compute; reflexivity).
    rewrite Hrel in Htwo. simpl in Htwo, Hidle. congruence.
Qed.

Lemma round_trip_sizes_witness :
  reachable TransportPool.live pool4 ∧ active (this pool4) = ∅ ∧
  [B] ≡ₚ (allocate_many [0] pool4).1 ∧
  ∃ st', release_many [B] (allocate_many [0] pool4).2 = Released st' ∧
    size (active (this st')) = 0 ∧
    size (idle (this st')) = 1 `max` size (idle (this pool4)) ∧
    (size (idle (this pool4)) ≤ 1 → size (idle (this st')) = 1).
Proof.
  assert (active (this pool4) = ∅) as Hact by (vm_compute; reflexivity).
  assert ([B] ≡ₚ (allocate_many [0] pool4).1) as Hperm
    by (vm_compute; reflexivity).
  split; [exact Scenario_pool4_reachable|].
  split; [exact Hact|]. split; [exact Hperm|].
  exact (round_trip_sizes TransportPool.live pool4 [0] [B]
           Scenario_pool4_reachable Hact Hperm).
Defined.

(** Releasing a sprite the pool never handed out, and releasing [A] twice. *)
Lemma release_checks_active_witness :
  release 9%positive pool2 = AssertionFailed pool2 ∧
  ∃ st', release A pool2 = Released st' ∧
    release A st' = AssertionFailed st'.
Proof.
  destruct (release_checks_active TransportPool.live pool2 9%positive)
    as (Hbad & _ & _).
  destruct (release_checks_active TransportPool.live pool2 A)
    as (_ & Hgood & _).
  split.
  - apply Hbad. intros Hin.
    apply (bool_decide_pack (9%positive ∈ active (this pool2))) in Hin.
    vm_compute in Hin. exact Hin.
  - destruct Hgood as (st' & Hr & _ & _ & _ & Hagain).
    + apply (bool_decide_unpack (A ∈ active (this pool2))).
      vm_compute. exact I.
    + exists st'. split; [exact Hr|exact Hagain].
Defined.

End PoolOnScene.

(* ===================================================================== *)
(** * TransportPool: constructor, [create] and the two hooks              *)
(* ===================================================================== *)

Section TransportPoolContract.
Import Pixi ObjectPool.

Implicit Types (this : Pool TransportPool.Fields) (h : Heap) (obj o : ObjId).

(** C6 (the hooks touch the sprite's opacity and nothing else).  For a sprite
    [obj] of the heap, [onRelease] sets its [alpha] to 0 and [onAllocate]
    sets it to [DefaultAlpha], which is 0.5; the sprite stays in the heap with
    every other field as it was, every other object of the heap is unchanged,
    and the receiver, hence the pool's bookkeeping, is returned as it was. *)
Theorem hooks_set_alpha_only this h obj (s : Sprite) :
  h !! obj = Some s →
  (∃ s', (TransportPool.onRelease obj this h).2 !! obj = Some s' ∧
     alpha s' = 0%Q ∧
     texture s' = texture s ∧ scale s' = scale s ∧ anchor s' = anchor s ∧
     position s' = position s ∧ visible s' = visible s ∧
     parent s' = parent s ∧ children s' = children s) ∧
  (∃ s', (TransportPool.onAllocate obj this h).2 !! obj = Some s' ∧
     alpha s' = TransportPool.DefaultAlpha ∧
     texture s' = texture s ∧ scale s' = scale s ∧ anchor s' = anchor s ∧
     position s' = position s ∧ visible s' = visible s ∧
     parent s' = parent s ∧ children s' = children s) ∧
  TransportPool.DefaultAlpha = 0.5%Q ∧
  (∀ o, o ≠ obj →
     (TransportPool.onRelease obj this h).2 !! o = h !! o ∧
     (TransportPool.onAllocate obj this h).2 !! o = h !! o) ∧
  dom (TransportPool.onRelease obj this h).2 = dom h ∧
  dom (TransportPool.onAllocate obj this h).2 = dom h ∧
  (TransportPool.onRelease obj this h).1 = this ∧
  (TransportPool.onAllocate obj this h).1 = this.
Proof.
  intros Hs. unfold TransportPool.onRelease, TransportPool.onAllocate. simpl.
  split_and!.
  - exists (set_alpha 0 s). rewrite lookup_alter_eq, Hs. by split_and!.
  - exists (set_alpha TransportPool.DefaultAlpha s).
    rewrite lookup_alter_eq, Hs. by split_and!.
  - reflexivity.
  - intros o Hne. by rewrite !lookup_alter_ne.
  - by rewrite dom_alter_L.
  - by rewrite dom_alter_L.
  - reflexivity.
  - reflexivity.
Qed.

(** C7 (the constructor checks its texture).  The constructor logs
    "Texture is not valid" on the console exactly when the texture argument
    is not an instance of [Texture]; a valid texture leaves the console as it
    was.  [console.assert] does not throw: in both cases the constructor
    returns a pool with empty sets that stores the two arguments. *)
Theorem constructor_asserts_texture (texture : JsValue) (parent : ObjId)
    (console : list string) :
  (instanceof_Texture texture = true →
     (TransportPool.constructor texture parent console).2 = console) ∧
  (instanceof_Texture texture = false →
     (TransportPool.constructor texture parent console).2 =
       console ++ ["Texture is not valid"]) ∧
  ((TransportPool.constructor texture parent console).2 ≠ console ↔
     instanceof_Texture texture = false) ∧
  (TransportPool.constructor texture parent console).1 =
    mkPool (TransportPool.mkFields texture parent) ∅ ∅.
Proof.
  unfold TransportPool.constructor, console_assert. simpl.
  assert (console ++ ["Texture is not valid"] ≠ console) as Hlog.
  { intros Heq. apply (f_equal length) in Heq.
    rewrite length_app in Heq. simpl in Heq. lia. }
  destruct (instanceof_Texture texture); split_and!;
    try done; try discriminate.
Qed.

(** C8 ([create] builds a sprite wired into the parent container).  For a
    pool whose texture is a [Texture], as its type says, and whose parent is
    a container of the heap, [create] returns, leaving the receiver as it
    was, an object that was not in the heap before: a sprite with the pool's
    texture, scale (0.15, 0.15), anchor (1, 0.5), whose parent is the
    configured container and which has been appended to that container's
    children.  No other object of the heap changes.  This is also what the
    pool's construction hook returns. *)
Theorem create_wires_sprite this h (c : Sprite) :
  h !! TransportPool._parent (fields this) = Some c →
  instanceof_Texture (TransportPool._texture (fields this)) = true →
  ∃ o h',
    TransportPool.create this h = Some (o, this, h') ∧
    ObjectPool.create this h = (o, this, h') ∧
    (o ∉ dom h) ∧
    (∃ s, h' !! o = Some s ∧
       texture s = TransportPool._texture (fields this) ∧
       scale s = mkPoint 0.15 0.15 ∧
       anchor s = mkPoint 1 0.5 ∧
       parent s = Some (TransportPool._parent (fields this)) ∧
       alpha s = 1%Q ∧ visible s = true ∧ children s = []) ∧
    h' !! TransportPool._parent (fields this) = Some (push_child o c) ∧
    children (push_child o c) = children c ++ [o] ∧
    (∀ o', o' ≠ o → o' ≠ TransportPool._parent (fields this) →
       h' !! o' = h !! o').
Proof.
  intros Hc Hv.
  set (o := fresh (dom h)). set (p := TransportPool._parent (fields this)) in *.
  assert (o ∉ dom h) as Hfresh by apply is_fresh.
  assert (p ≠ o) as Hne.
  { intros ->. apply Hfresh. apply elem_of_dom. by eexists. }
  exists o,
    (alter (set_anchor_y 0.5) o
       (alter (set_anchor_x 1) o
          (alter (set_scale (mkPoint 0.15 0.15)) o
             (alter (push_child o) p
                (alter (set_parent (Some p)) o
                   (<[o := default_Sprite (TransportPool._texture (fields this))]> h)))))).
  split_and!.
  - by rewrite (TransportPool_create_unfold this h Hv).
  - change (ObjectPool.create this h) with (TransportPool.create_hook this h).
    by rewrite (TransportPool_create_hook_unfold this h Hv).
  - done.
  - eexists. split.
    + rewrite !lookup_alter_eq, lookup_alter_ne by done.
      rewrite lookup_alter_eq, lookup_insert_eq. simpl. reflexivity.
    + by split_and!.
  - rewrite !(lookup_alter_ne _ _ o p) by done.
    rewrite lookup_alter_eq, lookup_alter_ne, lookup_insert_ne by done.
    by rewrite Hc.
  - done.
  - intros o' Ho Hp.
    rewrite !(lookup_alter_ne _ _ o o') by done.
    rewrite lookup_alter_ne by done.
    rewrite lookup_alter_ne, lookup_insert_ne by done. done.
Qed.

Lemma hooks_set_alpha_only_witness :
  Scenario.stage !! 1%positive = Some (default_Sprite JsUndefined) ∧
  ∃ s', (TransportPool.onRelease 1 (this Scenario.pool0) Scenario.stage).2
          !! 1%positive = Some s' ∧ alpha s' = 0%Q.
Proof.
  assert (Scenario.stage !! 1%positive = Some (default_Sprite JsUndefined))
    as Hs by reflexivity.
  split; [exact Hs|].
  destruct (hooks_set_alpha_only (this Scenario.pool0) Scenario.stage 1 _ Hs)
    as ((s' & Hl & Ha & _) & _).
  exists s'. split; [exact Hl|exact Ha].
Defined.

Lemma create_wires_sprite_witness :
  Scenario.stage !! TransportPool._parent (fields (this Scenario.pool0))
    = Some (default_Sprite JsUndefined) ∧
  instanceof_Texture (TransportPool._texture (fields (this Scenario.pool0)))
    = true ∧
  ∃ o h' s,
    TransportPool.create (this Scenario.pool0) Scenario.stage
      = Some (o, this Scenario.pool0, h') ∧
    h' !! o = Some s ∧
    scale s = mkPoint 0.15 0.15 ∧ anchor s = mkPoint 1 0.5.
Proof.
  assert (Scenario.stage !! TransportPool._parent (fields (this Scenario.pool0))
            = Some (default_Sprite JsUndefined)) as Hc by reflexivity.
  assert (instanceof_Texture
            (TransportPool._texture (fields (this Scenario.pool0))) = true)
    as Hv by reflexivity.
  split; [exact Hc|]. split; [exact Hv|].
  destruct (create_wires_sprite (this Scenario.pool0) Scenario.stage _ Hc Hv)
    as (o & h' & Hcreate & _ & _ & (s & Hl & _ & Hscale & Hanchor & _) & _).
  exists o, h', s.
  split; [exact Hcreate|]. split; [exact Hl|].
  split; [exact Hscale|exact Hanchor].
Defined.

End TransportPoolContract.

(* ===================================================================== *)
(** * The hooks of Hook.ts                                                *)
(* ===================================================================== *)

Section HookContract.
Import Hook.

Lemma filter_ne_id (l : FnId) (ls : list FnId) :
  l ∉ ls → filter (λ l', l' ≠ l) ls = ls.
Proof.
  induction ls as [|a ls IH]; intros Hl; [done|].
  apply not_elem_of_cons in Hl as [Hne Hl].
  rewrite filter_cons_True by done. by rewrite IH.
Qed.

(** Registering a listener the event does not have yet and deregistering it
    gives back the event as it was. *)
Lemma off_on_fresh (l : FnId) (e : TypedEvent) :
  l ∉ listeners e → off l (on l e) = e.
Proof.
  intros Hl. unfold on, off. rewrite decide_False by done. simpl.
  rewrite filter_app, filter_ne_id by done.
  rewrite filter_cons_False, filter_nil by (intros Hne; by apply Hne).
  rewrite app_nil_r. by destruct e.
Qed.

Lemma wf_World_fresh (w : World) : wf_World w → next_fn w ∉ listeners (event w).
Proof.
  unfold wf_World. rewrite Forall_forall. intros Hwf Hin.
  specialize (Hwf _ Hin). lia.
Qed.

(** C9 ([useShortcut] sets the key and clears it, nothing more).  The effect
    sets the registry's entry for the key to the callback; its clean-up sets
    that entry to [undefined] whatever the registry holds, so a handler that
    was registered under the key before the effect ran is not restored;
    entries under other keys are left as they are by both.  Mounting a
    component that calls [useShortcut] runs the effect, and unmounting it
    runs that clean-up. *)
Theorem useShortcut_sets_and_clears (k : string) (callback : FnId)
    (deps : list Dep) (shortcuts : Shortcuts) :
  let installed := (useShortcut_effect k callback shortcuts).1 in
  let cleanup := (useShortcut_effect k callback shortcuts).2 in
  installed !! k = Some (Some callback) ∧
  get_shortcut k installed = Some callback ∧
  (∀ r : Shortcuts, cleanup r !! k = Some None ∧ get_shortcut k (cleanup r) = None) ∧
  (∀ prev, shortcuts !! k = Some (Some prev) →
     cleanup installed !! k ≠ shortcuts !! k) ∧
  (∀ k', k' ≠ k →
     installed !! k' = shortcuts !! k' ∧
     ∀ r : Shortcuts, cleanup r !! k' = r !! k') ∧
  (useShortcut k callback deps None shortcuts).2 = installed ∧
  unmount (useShortcut k callback deps None shortcuts).1 installed =
    <[k := None]> installed.
Proof.
  unfold useShortcut, useShortcut_effect, get_shortcut. simpl. split_and!.
  - by rewrite lookup_insert_eq.
  - by rewrite lookup_insert_eq.
  - intros r. by rewrite lookup_insert_eq.
  - intros prev Hprev. rewrite lookup_insert_eq, Hprev. discriminate.
  - intros k' Hne. split; [|intros r]; by rewrite lookup_insert_ne.
  - done.
  - done.
Qed.

(** C10 ([observe] returns [getter()] and subscribes a counter bump).
    [observe] returns what [getter] returns on the current state, whatever
    the hook state of the component and the event are.  The listener's
    update of the counter does not depend on the event payload, and below
    [2^53] it adds one.  On mount the listener registered is the function
    object created by that render, the clean-up kept by React deregisters
    that same function object, and unmounting gives back the event with the
    listeners it had before the mount. *)
Theorem observe_subscribes_counter {T G : Type} (event_id : ObjId)
    (getter : G → T) (inst : option Observer) (g : G) (w : World)
    (data data' : T) (old : N) :
  wf_World w →
  (observe event_id getter inst g w).1.1 = getter g ∧
  handleEvent data old = handleEvent data' old ∧
  ((old < 2 ^ 53)%N → handleEvent data old = (old + 1)%N) ∧
  listeners (event (observe event_id getter None g w).2) =
    listeners (event w) ++ [next_fn w] ∧
  (∃ cell, effect_cell (observe event_id getter None g w).1.2 = Some cell ∧
     cell_deps cell = (event_id, next_fn w) ∧
     ∀ e, cell_cleanup cell e = off (next_fn w) e) ∧
  event (unmount_observer (observe event_id getter None g w).1.2
           (observe event_id getter None g w).2) = event w.
Proof.
  intros Hwf. apply wf_World_fresh in Hwf. split_and!.
  - unfold observe.
    by destruct (useEffect _ _ _ _) as [cell ev].
  - done.
  - intros Hlt. unfold handleEvent, js_succ.
    by rewrite (proj2 (N.ltb_lt _ _) Hlt).
  - unfold observe, observe_effect, on. simpl. by rewrite decide_False.
  - unfold observe, observe_effect. simpl. by eexists.
  - unfold observe, unmount_observer, observe_effect. simpl.
    by apply off_on_fresh.
Qed.

Lemma observe_subscribes_counter_witness :
  wf_World Scenario.world0 ∧
  listeners (event (observe 1%positive (λ g : nat, g) None 7 Scenario.world0).2)
    = [2; 4; 5]%positive ∧
  event (unmount_observer
           (observe 1%positive (λ g : nat, g) None 7 Scenario.world0).1.2
           (observe 1%positive (λ g : nat, g) None 7 Scenario.world0).2)
    = event Scenario.world0.
Proof.
  assert (wf_World Scenario.world0) as Hwf.
  { unfold wf_World, Scenario.world0. simpl.
    repeat constructor. }
  split; [exact Hwf|].
  destruct (observe_subscribes_counter 1%positive (λ g : nat, g) None 7
              Scenario.world0 0 0 0%N Hwf) as (_ & _ & _ & Hl & _ & Hu).
  split; [exact Hl|exact Hu].
Defined.

End HookContract.

(* ===================================================================== *)
(** * Hook.ts over the life of a component                                *)
(* ===================================================================== *)

Section HookLifecycle.
Import Hook HookMore.

Lemma elem_of_on (l l' : FnId) (e : TypedEvent) :
  l' ∈ listeners (on l e) ↔ l' = l ∨ l' ∈ listeners e.
Proof.
  unfold on. destruct (decide (l ∈ listeners e)) as [Hin|Hin]; simpl.
  - split; [by right|]. intros [->|]; done.
  - rewrite elem_of_app, list_elem_of_singleton. tauto.
Qed.

Lemma elem_of_off (l l' : FnId) (e : TypedEvent) :
  l' ∈ listeners (off l e) ↔ l' ≠ l ∧ l' ∈ listeners e.
Proof. unfold off. simpl. rewrite list_elem_of_filter. tauto. Qed.

Lemma off_last (l : FnId) (base : list FnId) :
  l ∉ base → off l (mkEvent (base ++ [l])) = mkEvent base.
Proof.
  intros Hl. unfold off. simpl.
  rewrite filter_app, filter_ne_id by done.
  rewrite filter_cons_False, filter_nil by (intros Hne; by apply Hne).
  by rewrite app_nil_r.
Qed.

Lemma on_new (l : FnId) (base : list FnId) :
  l ∉ base → on l (mkEvent base) = mkEvent (base ++ [l]).
Proof. intros Hl. unfold on. simpl. by rewrite decide_False. Qed.

(** React's one-effect [useEffect] is the two commit phases in a row. *)
Lemma useEffect_two_phase {D S} `{EqDecision D} (effect : S → S * (S → S))
    (deps : D) (cell : option (EffectCell D S)) (s : S) :
  useEffect effect deps cell s =
    commit_effect effect deps cell (commit_cleanup deps cell s).
Proof.
  unfold useEffect, commit_effect, commit_cleanup.
  destruct cell as [old|]; [|done]. by destruct (decide _).
Qed.

(** ** makeObservableHook *)

Section ObserveLifecycle.
Context {T G : Type} (event_id : ObjId) (getter : G → T).

Lemma observe_step (g : G) (w : World) (i : Observer) (l : FnId)
    (base : list FnId) :
  wf_World w → subscribed event_id l i →
  listeners (event w) = base ++ [l] → l ∉ base →
  let r := observe event_id getter (Some i) g w in
  wf_World r.2 ∧ subscribed event_id (next_fn w) r.1.2 ∧
  listeners (event r.2) = base ++ [next_fn w] ∧
  next_fn r.2 = Pos.succ (next_fn w) ∧
  counter r.1.2 = counter i.
Proof.
  intros Hwf (c & Hc & Hdeps & Hclean) Hls Hnin.
  assert (Forall (λ l', (l' < next_fn w)%positive) (base ++ [l])) as Hall
    by (by rewrite <- Hls).
  apply Forall_app in Hall as [Hbase Hl].
  apply Forall_inv in Hl. simpl in Hl.
  assert (next_fn w ∉ base) as Hfresh.
  { intros Hin. rewrite Forall_forall in Hbase. specialize (Hbase _ Hin). lia. }
  unfold observe. simpl. rewrite Hc. simpl. unfold useEffect.
  rewrite Hdeps. rewrite decide_False by (intros [= Heq]; lia).
  unfold observe_effect. rewrite Hclean. simpl.
  destruct (event w) as [ls]. simpl in Hls. subst ls.
  rewrite off_last, on_new by done. split_and!.
  - unfold wf_World. simpl. apply Forall_app. split.
    + eapply Forall_impl; [exact Hbase|]. simpl. intros. lia.
    + apply Forall_singleton. lia.
  - eexists. simpl. done.
  - done.
  - done.
  - done.
Qed.

Lemma observe_again_spec (gs : list G) (w : World) (i : Observer) (l : FnId)
    (base : list FnId) :
  wf_World w → subscribed event_id l i →
  listeners (event w) = base ++ [l] → l ∉ base →
  next_fn w = Pos.succ l →
  let r := observe_again event_id getter gs i w in
  ∃ l', wf_World r.2 ∧ subscribed event_id l' r.1 ∧
    listeners (event r.2) = base ++ [l'] ∧ (l' ∉ base) ∧
    Pos.to_nat l' = Pos.to_nat l + length gs ∧
    next_fn r.2 = Pos.succ l' ∧
    counter r.1 = counter i.
Proof.
  revert w i l.
  induction gs as [|g gs IH]; intros w i l Hwf Hsub Hls Hnin Hnext.
  - exists l. simpl. split_and!; try done; lia.
  - simpl.
    destruct (observe_step g w i l base Hwf Hsub Hls Hnin)
      as (Hwf1 & Hsub1 & Hls1 & Hnext1 & Hcnt1).
    destruct (observe event_id getter (Some i) g w) as [[v i1] w1].
    simpl in *.
    assert (next_fn w ∉ base) as Hfresh.
    { intros Hin. unfold wf_World in Hwf. rewrite Hls in Hwf.
      apply Forall_app in Hwf as [Hbase _].
      rewrite Forall_forall in Hbase. specialize (Hbase _ Hin). lia. }
    destruct (IH w1 i1 (next_fn w) Hwf1 Hsub1 Hls1 Hfresh Hnext1)
      as (l' & ? & ? & ? & ? & Hl' & ? & Hcnt).
    exists l'. rewrite Hcnt, Hcnt1. split_and!; try done; lia.
Qed.

(** X1 (re-rendering does not pile up listeners).  Mount a component that
    calls [observe] and re-render it any number of times.  Every render
    creates one function object and subscribes it, after taking back the
    subscription of the render before.  So the event then has the listeners
    it had before the mount, in the same order, followed by exactly one
    more: the function object of the latest render, which is the latest
    function object created; after a re-render the function object of the
    mount is no longer registered.  Rendering never changes the counter, and
    unmounting gives back the event as it was before the mount. *)
Theorem observe_rerender_one_listener (g : G) (gs : list G) (w : World) :
  wf_World w →
  let mounted := observe event_id getter None g w in
  let final := observe_again event_id getter gs mounted.1.2 mounted.2 in
  ∃ l, listeners (event final.2) = listeners (event w) ++ [l] ∧
    (l ∉ listeners (event w)) ∧
    subscribed event_id l final.1 ∧
    Pos.to_nat l = Pos.to_nat (next_fn w) + length gs ∧
    next_fn final.2 = Pos.succ l ∧
    (gs ≠ [] → next_fn w ∉ listeners (event final.2)) ∧
    counter final.1 = 0%N ∧
    event (unmount_observer final.1 final.2) = event w.
Proof.
  intros Hwf mounted final.
  pose proof (wf_World_fresh w Hwf) as Hfresh.
  assert (wf_World mounted.2 ∧ subscribed event_id (next_fn w) mounted.1.2 ∧
          listeners (event mounted.2) = listeners (event w) ++ [next_fn w] ∧
          next_fn mounted.2 = Pos.succ (next_fn w) ∧
          counter mounted.1.2 = 0%N) as (Hwf0 & Hsub0 & Hls0 & Hnext0 & Hcnt0).
  { subst mounted. unfold observe, observe_effect. simpl.
    destruct (event w) as [ls] eqn:Hev. simpl in *.
    rewrite on_new by done. split_and!; [|by eexists|done|done|done].
    unfold wf_World in *. simpl. rewrite Hev in Hwf. simpl in Hwf.
    apply Forall_app. split.
    - eapply Forall_impl; [exact Hwf|]. simpl. intros. lia.
    - apply Forall_singleton. lia. }
  destruct (observe_again_spec gs mounted.2 mounted.1.2 (next_fn w)
              (listeners (event w)) Hwf0 Hsub0 Hls0 Hfresh Hnext0)
    as (l & _ & Hsub & Hls & Hnin & Hl & Hnext & Hcnt).
  fold final in Hsub, Hls, Hcnt, Hnext.
  exists l. split_and!; [done | done | done | done | done | | congruence |].
  - intros Hgs Hin. rewrite Hls in Hin.
    apply elem_of_app in Hin as [Hin|Hin]; [done|].
    apply list_elem_of_singleton in Hin.
    destruct gs as [|g' gs']; [done|]. simpl in Hl. lia.
  - destruct Hsub as (c & Hc & _ & Hclean).
    unfold unmount_observer. rewrite Hc. simpl. rewrite Hclean.
    destruct (event final.2) as [ls]. simpl in Hls. subst ls.
    rewrite off_last by done. by destruct (event w).
Qed.

End ObserveLifecycle.

(** ** refreshOnTypedEvent *)

Lemma refresh_step (ev : ObjId) (w : EventWorld) (i : Refresher) (l : FnId)
    (c : SubscriptionCell) (base : list FnId) :
  wf_EventWorld w → refresh_cell i = Some c → subscription ev l c →
  events w !! ev = Some (mkEvent (base ++ [l])) → l ∉ base →
  let r := refreshOnTypedEvent ev (Some i) w in
  wf_EventWorld r.2 ∧
  (∃ c', refresh_cell r.1 = Some c' ∧ subscription ev (next_listener w) c') ∧
  events r.2 = <[ev := mkEvent (base ++ [next_listener w])]> (events w) ∧
  (next_listener w ∉ base) ∧
  refresh_counter r.1 = refresh_counter i.
Proof.
  intros Hwf Hc [Hdeps Hclean] Hev Hnin.
  pose proof (Hwf ev _ Hev) as Hall. simpl in Hall.
  apply Forall_app in Hall as [Hbase Hl]. apply Forall_inv in Hl. simpl in Hl.
  assert (next_listener w ∉ base) as Hfresh.
  { intros Hin. rewrite Forall_forall in Hbase. specialize (Hbase _ Hin). lia. }
  unfold refreshOnTypedEvent. simpl. rewrite Hc. simpl. unfold useEffect.
  rewrite Hdeps. rewrite decide_False by (intros [= Heq]; lia).
  unfold subscribe_effect. rewrite Hclean. simpl.
  assert (alter (on (next_listener w)) ev (alter (off l) ev (events w)) =
          <[ev := mkEvent (base ++ [next_listener w])]> (events w)) as Hes.
  { apply map_eq. intros ev'. destruct (decide (ev = ev')) as [<-|Hne].
    - rewrite !lookup_alter_eq, lookup_insert_eq, Hev. simpl.
      by rewrite off_last, on_new.
    - by rewrite !lookup_alter_ne, lookup_insert_ne. }
  rewrite Hes. split_and!; [| by eexists | done | done | done].
  intros ev' e'. simpl. intros Hl'.
  destruct (decide (ev = ev')) as [<-|Hne].
  - rewrite lookup_insert_eq in Hl'. injection Hl' as <-. simpl.
    apply Forall_app. split.
    + eapply Forall_impl; [exact Hbase|]. simpl. intros. lia.
    + apply Forall_singleton. lia.
  - rewrite lookup_insert_ne in Hl' by done.
    eapply Forall_impl; [exact (Hwf _ _ Hl')|]. simpl. intros. lia.
Qed.

Lemma refresh_again_spec (k : nat) (ev : ObjId) (w : EventWorld)
    (i : Refresher) (l : FnId) (c : SubscriptionCell) (base : list FnId) :
  wf_EventWorld w → refresh_cell i = Some c → subscription ev l c →
  events w !! ev = Some (mkEvent (base ++ [l])) → l ∉ base →
  let r := refresh_again k ev i w in
  ∃ l' c', wf_EventWorld r.2 ∧
    refresh_cell r.1 = Some c' ∧ subscription ev l' c' ∧
    events r.2 = <[ev := mkEvent (base ++ [l'])]> (events w) ∧
    (l' ∉ base) ∧
    refresh_counter r.1 = refresh_counter i.
Proof.
  revert w i l c. induction k as [|k IH]; intros w i l c Hwf Hc Hsub Hev Hnin.
  - exists l, c. simpl. split_and!; try done. by rewrite insert_id.
  - simpl.
    destruct (refresh_step ev w i l c base Hwf Hc Hsub Hev Hnin)
      as (Hwf1 & (c1 & Hc1 & Hsub1) & Hes1 & Hfresh & Hcnt1).
    destruct (refreshOnTypedEvent ev (Some i) w) as [i1 w1]. simpl in *.
    destruct (IH w1 i1 (next_listener w) c1 Hwf1 Hc1 Hsub1) as
      (l' & c' & ? & ? & ? & Hes & ? & Hcnt); [|done|].
    { by rewrite Hes1, lookup_insert_eq. }
    exists l', c'. split_and!; try done; [|congruence].
    by rewrite Hes, Hes1, insert_insert_eq.
Qed.

(** X2 (a refreshing component keeps one listener, on its event only).
    Mount a component that calls [refreshOnTypedEvent(event)] and re-render
    it any number of times: the event has its earlier listeners, in order,
    followed by exactly one more; all other events are as they were; the
    counter is not changed by rendering; and unmounting gives back all events
    as they were before the mount. *)
Theorem refresh_rerender_one_listener (k : nat) (ev : ObjId) (w : EventWorld)
    (e : TypedEvent) :
  wf_EventWorld w → events w !! ev = Some e →
  let mounted := refreshOnTypedEvent ev None w in
  let final := refresh_again k ev mounted.1 mounted.2 in
  ∃ l, events final.2 !! ev = Some (mkEvent (listeners e ++ [l])) ∧
    (l ∉ listeners e) ∧
    (∀ ev', ev' ≠ ev → events final.2 !! ev' = events w !! ev') ∧
    refresh_counter final.1 = 0%N ∧
    unmount (refresh_cell final.1) (events final.2) = events w.
Proof.
  intros Hwf Hev mounted final. destruct e as [base].
  pose proof (Hwf ev _ Hev) as Hbase. simpl in Hbase.
  assert (next_listener w ∉ base) as Hfresh.
  { intros Hin. rewrite Forall_forall in Hbase. specialize (Hbase _ Hin). lia. }
  assert (events mounted.2 = <[ev := mkEvent (base ++ [next_listener w])]> (events w))
    as Hes0.
  { subst mounted. unfold refreshOnTypedEvent, subscribe_effect. simpl.
    apply map_eq. intros ev'. destruct (decide (ev = ev')) as [<-|Hne].
    - by rewrite lookup_alter_eq, lookup_insert_eq, Hev; simpl; rewrite on_new.
    - by rewrite lookup_alter_ne, lookup_insert_ne. }
  assert (wf_EventWorld mounted.2) as Hwf0.
  { intros ev' e'. rewrite Hes0. subst mounted. simpl. intros Hl'.
    destruct (decide (ev = ev')) as [<-|Hne].
    - rewrite lookup_insert_eq in Hl'. injection Hl' as <-. simpl.
      apply Forall_app. split.
      + eapply Forall_impl; [exact Hbase|]. simpl. intros. lia.
      + apply Forall_singleton. lia.
    - rewrite lookup_insert_ne in Hl' by done.
      eapply Forall_impl; [exact (Hwf _ _ Hl')|]. simpl. intros. lia. }
  destruct (refresh_again_spec k ev mounted.2 mounted.1 (next_listener w)
              (mkCell (ev, next_listener w)
                 (λ es', alter (off (next_listener w)) ev es')) base)
    as (l & c & _ & Hc & [_ Hclean] & Hes & Hnin & Hcnt); try done.
  { by rewrite Hes0, lookup_insert_eq. }
  fold final in Hc, Hes, Hcnt. simpl in *.
  exists l. rewrite Hes, Hes0, insert_insert_eq. split_and!.
  - by rewrite lookup_insert_eq.
  - done.
  - intros ev' Hne. by rewrite lookup_insert_ne.
  - by rewrite Hcnt.
  - rewrite Hc. simpl. rewrite Hclean. apply map_eq. intros ev'.
    destruct (decide (ev = ev')) as [<-|Hne].
    + rewrite lookup_alter_eq, lookup_insert_eq, Hev. simpl.
      by rewrite off_last.
    + by rewrite lookup_alter_ne, lookup_insert_ne.
Qed.

(** X3 (a refreshing component follows its event).  When a mounted component
    is rendered again with a different event, its old listener is removed
    from the event it was subscribed to, a new listener is appended to the
    new event, and no other event changes. *)
Theorem refresh_switches_event (ev0 ev1 : ObjId) (w : EventWorld)
    (i : Refresher) (l0 : FnId) (c : SubscriptionCell) (e0 e1 : TypedEvent) :
  wf_EventWorld w → refresh_cell i = Some c → subscription ev0 l0 c →
  ev0 ≠ ev1 → events w !! ev0 = Some e0 → events w !! ev1 = Some e1 →
  let r := refreshOnTypedEvent ev1 (Some i) w in
  events r.2 !! ev0 = Some (off l0 e0) ∧
  (l0 ∉ listeners (off l0 e0)) ∧
  events r.2 !! ev1 = Some (mkEvent (listeners e1 ++ [next_listener w])) ∧
  (∀ ev', ev' ≠ ev0 → ev' ≠ ev1 → events r.2 !! ev' = events w !! ev') ∧
  (∃ c', refresh_cell r.1 = Some c' ∧ subscription ev1 (next_listener w) c').
Proof.
  intros Hwf Hc [Hdeps Hclean] Hne Hev0 Hev1.
  pose proof (Hwf ev1 _ Hev1) as Hall.
  assert (next_listener w ∉ listeners e1) as Hfresh.
  { intros Hin. rewrite Forall_forall in Hall. specialize (Hall _ Hin).
    simpl in Hall. lia. }
  assert (l0 ∉ listeners (off l0 e0)) as Hoff by (rewrite elem_of_off; tauto).
  unfold refreshOnTypedEvent. simpl. rewrite Hc. simpl. unfold useEffect.
  rewrite Hdeps. rewrite decide_False by (intros [= Heq _]; done).
  unfold subscribe_effect. rewrite Hclean. simpl. split_and!.
  - by rewrite lookup_alter_ne, lookup_alter_eq, Hev0.
  - exact Hoff.
  - rewrite lookup_alter_eq, lookup_alter_ne, Hev1 by done. simpl.
    destruct e1 as [ls]. simpl in *. by rewrite on_new.
  - intros ev' H0 H1. by rewrite !lookup_alter_ne.
  - by eexists.
Qed.

(** ** useTypedEvent *)

(** X4 ([useTypedEvent] moves the subscription when its arguments change).
    Rendering again with the same event and the same listener function does
    nothing.  Rendering with another event or another listener leaves the new
    listener registered on the new event and the old listener no longer
    registered on the old event, and for every other listener and every
    event, whether it is registered is as before. *)
Theorem useTypedEvent_moves_subscription (ev0 ev : ObjId) (l0 l : FnId)
    (c : SubscriptionCell) (es : Events) (e0 e : TypedEvent) :
  subscription ev0 l0 c → es !! ev0 = Some e0 → es !! ev = Some e →
  let r := useTypedEvent ev l (Some c) es in
  ((ev, l) = (ev0, l0) → r = (Some c, es)) ∧
  ((ev, l) ≠ (ev0, l0) →
     (∃ c', r.1 = Some c' ∧ subscription ev l c') ∧
     (∃ e', r.2 !! ev = Some e' ∧ l ∈ listeners e') ∧
     (∃ e0', r.2 !! ev0 = Some e0' ∧ l0 ∉ listeners e0') ∧
     (∀ ev' l' e', l' ≠ l → l' ≠ l0 → r.2 !! ev' = Some e' →
        ∃ e'', es !! ev' = Some e'' ∧
          (l' ∈ listeners e' ↔ l' ∈ listeners e''))).
Proof.
  intros [Hdeps Hclean] Hev0 Hev r. subst r.
  unfold useTypedEvent, useEffect. rewrite Hdeps. split.
  - intros Heq. by rewrite decide_True.
  - intros Hne. rewrite decide_False by done.
    unfold subscribe_effect. rewrite Hclean. simpl. split_and!.
    + by eexists.
    + rewrite lookup_alter_eq. destruct (decide (ev0 = ev)) as [->|Hne'].
      * rewrite lookup_alter_eq, Hev. simpl. eexists. split; [done|].
        apply elem_of_on. by left.
      * rewrite lookup_alter_ne, Hev by done. simpl. eexists. split; [done|].
        apply elem_of_on. by left.
    + destruct (decide (ev0 = ev)) as [->|Hne'].
      * rewrite !lookup_alter_eq, Hev. simpl. eexists. split; [done|].
        rewrite elem_of_on, elem_of_off. intros [->|[? _]]; [|done].
        by apply Hne.
      * rewrite lookup_alter_ne, lookup_alter_eq, Hev0 by done. simpl.
        eexists. split; [done|]. rewrite elem_of_off. tauto.
    + intros ev' l' e' Hl Hl0.
      destruct (decide (ev = ev')) as [<-|Hn1].
      * rewrite lookup_alter_eq. destruct (decide (ev0 = ev)) as [->|Hn2].
        -- rewrite lookup_alter_eq, Hev. simpl.
           intros [= <-]. eexists. split; [done|].
           rewrite elem_of_on, elem_of_off. tauto.
        -- rewrite lookup_alter_ne, Hev by done. simpl.
           intros [= <-]. eexists. split; [done|].
           rewrite elem_of_on. tauto.
      * rewrite lookup_alter_ne by done.
        destruct (decide (ev0 = ev')) as [<-|Hn3].
        -- rewrite lookup_alter_eq, Hev0. simpl.
           intros [= <-]. eexists. split; [done|].
           rewrite elem_of_off. tauto.
        -- rewrite lookup_alter_ne by done. intros He'. by eexists.
Qed.

(** ** useShortcut *)

Lemma useShortcut_mount (k : string) (callback : FnId) (deps : list Dep)
    (shortcuts : Shortcuts) :
  let r := useShortcut k callback deps None shortcuts in
  bound k callback deps r.1 r.2 ∧
  (∀ k', k' ≠ k → r.2 !! k' = shortcuts !! k').
Proof.
  unfold useShortcut, useEffect, useShortcut_effect, bound, shortcut_cell.
  simpl. split_and!.
  - by eexists.
  - by rewrite lookup_insert_eq.
  - intros k' Hne. by rewrite lookup_insert_ne.
Qed.

(** One more render of a mounted component whose handler is in place. *)
Lemma useShortcut_step (k0 k : string) (cb0 cb : FnId)
    (d0 d : list Dep) (cell : option ShortcutCell) (shortcuts : Shortcuts) :
  bound k0 cb0 d0 cell shortcuts →
  let r := useShortcut k cb d cell shortcuts in
  bound k cb d r.1 r.2 ∧
  (k ≠ k0 → r.2 !! k0 = Some None) ∧
  (∀ k', k' ≠ k → k' ≠ k0 → r.2 !! k' = shortcuts !! k').
Proof.
  intros [(c & -> & Hdeps & Hclean) Hreg] r. subst r.
  unfold useShortcut, useEffect. rewrite Hdeps.
  destruct (decide _) as [Heq|Hne].
  - injection Heq as -> -> ->. simpl. split_and!; [|done|done].
    split; [by exists c|done].
  - unfold useShortcut_effect, bound, shortcut_cell. simpl.
    rewrite Hclean. split_and!.
    + by eexists.
    + by rewrite lookup_insert_eq.
    + intros Hk. by rewrite lookup_insert_ne, lookup_insert_eq.
    + intros k' H1 H2. by rewrite !lookup_insert_ne.
Qed.

(** X5 (the latest render's handler is the one in the registry).  A mounted
    component whose handler is in place renders again with any key, callback
    and dependency list: afterwards the registry holds that render's callback
    under that render's key; if the key changed, the old key is set to
    [undefined]; every other key is untouched; and when key, callback and
    dependency list are all the same as before, nothing changes at all. *)
Theorem useShortcut_latest_wins (k0 k : string) (cb0 cb : FnId)
    (d0 d : list Dep) (cell : option ShortcutCell) (shortcuts : Shortcuts) :
  bound k0 cb0 d0 cell shortcuts →
  let r := useShortcut k cb d cell shortcuts in
  bound k cb d r.1 r.2 ∧
  (k ≠ k0 → r.2 !! k0 = Some None) ∧
  (∀ k', k' ≠ k → k' ≠ k0 → r.2 !! k' = shortcuts !! k') ∧
  (k = k0 → cb = cb0 → d = d0 → r = (cell, shortcuts)).
Proof.
  intros Hb r.
  destruct (useShortcut_step k0 k cb0 cb d0 d cell shortcuts Hb)
    as (Hbound & Hold & Hframe).
  split_and!; [done|done|done|].
  intros -> -> ->. subst r.
  destruct Hb as [(c & -> & Hdeps & _) _].
  unfold useShortcut, useEffect. rewrite Hdeps. by rewrite decide_True.
Qed.

Lemma useShortcut_renders_cons (k : string) (cb : FnId) (d : list Dep)
    (rs : list (string * FnId * list Dep)) (cell : option ShortcutCell)
    (s : Shortcuts) :
  useShortcut_renders ((k, cb, d) :: rs) cell s =
    useShortcut_renders rs (useShortcut k cb d cell s).1
      (useShortcut k cb d cell s).2.
Proof. simpl. by destruct (useShortcut k cb d cell s). Qed.

Lemma useShortcut_renders_spec (rs : list (string * FnId * list Dep))
    (initial : Shortcuts) (used : list string) (k0 : string) (cb0 : FnId)
    (d0 : list Dep) (cell : option ShortcutCell) (cur : Shortcuts) :
  bound k0 cb0 d0 cell cur → k0 ∈ used →
  (∀ k, k ∈ used → k ≠ k0 → cur !! k = Some None) →
  (∀ k, k ∉ used → cur !! k = initial !! k) →
  let r := useShortcut_renders rs cell cur in
  ∃ k1 cb1 d1, bound k1 cb1 d1 r.1 r.2 ∧
    last ((k0, cb0, d0) :: rs) = Some (k1, cb1, d1) ∧
    (∀ k, k ∈ used ∨ k ∈ (λ x, x.1.1) <$> rs → k ≠ k1 → r.2 !! k = Some None) ∧
    (∀ k, k ∉ used → k ∉ (λ x, x.1.1) <$> rs → r.2 !! k = initial !! k).
Proof.
  revert used k0 cb0 d0 cell cur.
  induction rs as [|[[k cb] d] rs IH];
    intros used k0 cb0 d0 cell cur Hb Hk0 Hused Hun.
  - simpl. exists k0, cb0, d0. split_and!; [done|done| |].
    + intros k [Hk|Hk] Hne; [by apply Hused|]. by apply elem_of_nil in Hk.
    + intros k Hk _. by apply Hun.
  - simpl.
    destruct (useShortcut_step k0 k cb0 cb d0 d cell cur Hb)
      as (Hb1 & Hold & Hframe).
    destruct (useShortcut k cb d cell cur) as [cell1 s1]. simpl in *.
    destruct (IH (k :: used) k cb d cell1 s1 Hb1) as
      (k1 & cb1 & d1 & Hb2 & Hlast & Hused2 & Hun2).
    + set_solver.
    + intros k' [->|Hk']%elem_of_cons Hne; [done|].
      destruct (decide (k' = k0)) as [->|Hne0]; [by apply Hold|].
      rewrite Hframe by done. by apply Hused.
    + intros k' Hk'. apply not_elem_of_cons in Hk' as [Hne Hk'].
      rewrite Hframe; [by apply Hun|done|]. intros ->. done.
    + exists k1, cb1, d1. split_and!; [done| | |].
      * destruct rs; done.
      * intros k' Hk' Hne. apply Hused2; [|done].
        rewrite elem_of_cons in Hk'. rewrite elem_of_cons.
        destruct Hk' as [?|[?|?]]; auto.
      * intros k' H1 H2. apply not_elem_of_cons in H2 as [? ?].
        apply Hun2; [|done]. by apply not_elem_of_cons.
Qed.

(** X6 (an unmounted component leaves no handler behind).  Over a whole life
    of a component that calls [useShortcut], mount, any number of further
    renders with any keys and callbacks, then unmount: while mounted the
    registry holds the latest callback under the latest key; after the
    unmount every key the component ever used is [undefined], and every key
    it never used is as it was before the mount. *)
Theorem useShortcut_leaves_no_handler (r0 : string * FnId * list Dep)
    (rs : list (string * FnId * list Dep)) (shortcuts : Shortcuts) :
  let final := useShortcut_renders (r0 :: rs) None shortcuts in
  let after := unmount final.1 final.2 in
  (∃ k cb d, last (r0 :: rs) = Some (k, cb, d) ∧
     final.2 !! k = Some (Some cb)) ∧
  (∀ k, k ∈ (λ x, x.1.1) <$> (r0 :: rs) → after !! k = Some None) ∧
  (∀ k, k ∉ (λ x, x.1.1) <$> (r0 :: rs) → after !! k = shortcuts !! k).
Proof.
  destruct r0 as [[k0 cb0] d0]. intros final after. subst after final.
  rewrite useShortcut_renders_cons.
  destruct (useShortcut_mount k0 cb0 d0 shortcuts) as [Hb Hframe].
  destruct (useShortcut k0 cb0 d0 None shortcuts) as [cell1 s1].
  cbn [fst snd] in *.
  destruct (useShortcut_renders_spec rs shortcuts [k0] k0 cb0 d0 cell1 s1 Hb)
    as (k1 & cb1 & d1 & [(c & Hc & _ & Hclean) Hreg] & Hlast & Hused & Hun).
  { set_solver. }
  { intros k [->|Hk]%elem_of_cons Hne; [done|]. by apply elem_of_nil in Hk. }
  { intros k Hk. apply Hframe. set_solver. }
  split_and!.
  - exists k1, cb1, d1. done.
  - intros k Hk. rewrite Hc. simpl. rewrite Hclean.
    destruct (decide (k = k1)) as [->|Hne]; [by rewrite lookup_insert_eq|].
    rewrite lookup_insert_ne by done. apply Hused; [|done].
    rewrite fmap_cons, elem_of_cons in Hk. simpl in Hk.
    rewrite list_elem_of_singleton. tauto.
  - intros k Hk. rewrite fmap_cons in Hk. simpl in Hk.
    apply not_elem_of_cons in Hk as [Hne Hk].
    rewrite Hc. simpl. rewrite Hclean.
    assert (k ≠ k1) as Hne1.
    { intros ->. apply last_Some_elem_of in Hlast.
      apply elem_of_cons in Hlast as [[= ?]|Hin]; [done|].
      apply Hk. apply list_elem_of_fmap. by exists (k1, cb1, d1). }
    rewrite lookup_insert_ne by done. apply Hun; [|done].
    by rewrite list_elem_of_singleton.
Qed.

(** ** TechPage's two shortcuts *)

(** X7 (TechPage keeps both of its shortcuts current).  After any render of
    [TechPage], the first or a later one, the registry holds that render's
    [goBackToCity] under "TechPageGoBackToCity" and that render's [unlock]
    under "TechPageUnlockTech", and every other key is untouched.  After the
    unmount both keys are [undefined] and every other key is still
    untouched. *)
Theorem TechPage_shortcuts_current (id id0 : string) (go un go0 un0 : FnId)
    (inst : option TechPageCells) (shortcuts : Shortcuts) :
  (inst = None ∨
   ∃ cells, inst = Some cells ∧
     bound "TechPageGoBackToCity" go0 [DepString id0] (goBack_cell cells) shortcuts ∧
     bound "TechPageUnlockTech" un0 [DepString id0] (unlock_cell cells) shortcuts) →
  let r := TechPage_shortcuts id go un inst shortcuts in
  let after := TechPage_unmount r.1 r.2 in
  bound "TechPageGoBackToCity" go [DepString id] (goBack_cell r.1) r.2 ∧
  bound "TechPageUnlockTech" un [DepString id] (unlock_cell r.1) r.2 ∧
  (∀ k, k ≠ "TechPageGoBackToCity" → k ≠ "TechPageUnlockTech" →
     r.2 !! k = shortcuts !! k ∧ after !! k = shortcuts !! k) ∧
  after !! "TechPageGoBackToCity" = Some None ∧
  after !! "TechPageUnlockTech" = Some None.
Proof.
  assert ("TechPageGoBackToCity" ≠ "TechPageUnlockTech") as Hkeys by done.
  intros [->|(cells & -> & [(c1 & Hc1 & Hd1 & Hcl1) Hr1]
                          & [(c2 & Hc2 & Hd2 & Hcl2) Hr2])] r after;
    subst after r; unfold TechPage_shortcuts, TechPage_unmount; simpl.
  - unfold bound, shortcut_cell. simpl. split_and!.
    + by eexists.
    + by rewrite lookup_insert_ne, lookup_insert_eq.
    + by eexists.
    + by rewrite lookup_insert_eq.
    + intros k H1 H2. by rewrite !lookup_insert_ne.
    + by rewrite lookup_insert_ne, lookup_insert_eq.
    + by rewrite lookup_insert_eq.
  - rewrite Hc1, Hc2. simpl. rewrite Hd1, Hd2.
    destruct (decide (_ = DepString "TechPageGoBackToCity" :: _)) as [Heq1|Hne1];
      destruct (decide (_ = DepString "TechPageUnlockTech" :: _)) as [Heq2|Hne2];
      simplify_eq; unfold bound, shortcut_cell; simpl;
      rewrite ?Hc1, ?Hc2; simpl; rewrite ?Hcl1, ?Hcl2;
      split_and!;
      try (eexists; split; [done|]; by split);
      try (intros k H1 H2; split);
      repeat (rewrite lookup_insert_eq || rewrite lookup_insert_ne by done);
      done.
Qed.

End HookLifecycle.

(* ===================================================================== *)
(** * Game start-up                                                       *)
(* ===================================================================== *)

Section StartupFacts.
Import Startup.

Section FindSpecialBuildingsFacts.
Context {ITileData : Type} (building_type : ITileData → option string).

(** The loop from any intermediate state: [prev] is the headquarter recorded
    so far, if any. *)
Lemma findSpecialBuildings_from (tiles : list (string * ITileData))
    (buildings : gmap string ITileData)
    (console : list (HeadquarterAssertion (ITileData:=ITileData)))
    (prev : option ITileData) :
  buildings !! "Headquarter" = prev →
  (∀ k, k ≠ "Headquarter" → buildings !! k = None) →
  let r := foldl (λ st kt, visit_tile building_type kt.2 st)
             (buildings, console) tiles in
  let hqs := option_list prev ++ headquarters building_type tiles in
  r.1 !! "Headquarter" = last hqs ∧
  (∀ k, k ≠ "Headquarter" → r.1 !! k = None) ∧
  r.2 = console ++ zip_with mkAssertion hqs (drop 1 hqs).
Proof.
  revert buildings console prev.
  induction tiles as [|[k tile] tiles IH]; intros buildings console prev Hb Hother.
  - simpl. unfold headquarters. simpl. rewrite app_nil_r.
    destruct prev as [p|]; simpl; by rewrite ?app_nil_r.
  - cbv zeta. unfold headquarters. rewrite fmap_cons. cbn [foldl snd].
    destruct (decide (building_type tile = Some "Headquarter")) as [Hq|Hq].
    + rewrite filter_cons_True by done.
      assert (visit_tile building_type tile (buildings, console) =
                (<["Headquarter" := tile]> buildings,
                 console ++ zip_with mkAssertion (option_list prev) [tile]))
        as ->.
      { unfold visit_tile. rewrite decide_True by done. simpl. rewrite Hb.
        destruct prev; simpl; by rewrite ?app_nil_r. }
      pose proof (IH (<["Headquarter" := tile]> buildings)
                    (console ++ zip_with mkAssertion (option_list prev) [tile])
                    (Some tile)) as HIH.
      cbv zeta in HIH. unfold headquarters in HIH.
      destruct HIH as (H1 & H2 & H3).
      { by rewrite lookup_insert_eq. }
      { intros k' Hk'. rewrite lookup_insert_ne by done. by apply Hother. }
      rewrite H1, H3. split_and!.
      * destruct prev; simpl; reflexivity.
      * done.
      * destruct prev as [p|]; simpl;
          [by rewrite <- app_assoc | by rewrite app_nil_r].
    + rewrite filter_cons_False by done.
      assert (visit_tile building_type tile (buildings, console) =
                (buildings, console)) as ->.
      { unfold visit_tile. by rewrite decide_False. }
      by apply IH.
Qed.

(** X8 (the last headquarter wins).  [findSpecialBuildings] returns an
    object whose only possible key is [Headquarter]; it holds the last tile,
    in visiting order, whose building is a headquarter, and the object is
    empty when no tile has one. *)
Theorem findSpecialBuildings_last_headquarter
    (tiles : list (string * ITileData))
    (console : list (HeadquarterAssertion (ITileData:=ITileData))) :
  (findSpecialBuildings building_type tiles console).1 =
    match last (headquarters building_type tiles) with
    | Some tile => {["Headquarter" := tile]}
    | None => ∅
    end.
Proof.
  destruct (findSpecialBuildings_from tiles ∅ console None)
    as (Hhq & Hother & _); [done|done|]. simpl in *.
  fold (findSpecialBuildings building_type tiles console) in Hhq, Hother.
  apply map_eq. intros k. destruct (decide (k = "Headquarter")) as [->|Hne].
  - rewrite Hhq. destruct (last _); [by rewrite lookup_singleton_eq|done].
  - rewrite Hother by done.
    destruct (last _); [by rewrite lookup_singleton_ne|done].
Qed.

(** X9 (one assertion per extra headquarter).  [findSpecialBuildings] only
    appends to the console, one failed assertion for every headquarter tile
    after the first, naming the headquarter found just before it and the
    tile itself; so nothing is printed exactly when at most one tile has a
    headquarter. *)
Theorem findSpecialBuildings_assertions
    (tiles : list (string * ITileData))
    (console : list (HeadquarterAssertion (ITileData:=ITileData))) :
  let hqs := headquarters building_type tiles in
  let console' := (findSpecialBuildings building_type tiles console).2 in
  console' = console ++ zip_with mkAssertion hqs (drop 1 hqs) ∧
  length console' = length console + (length hqs - 1) ∧
  (console' = console ↔ length hqs ≤ 1).
Proof.
  intros hqs console'.
  destruct (findSpecialBuildings_from tiles ∅ console None)
    as (_ & _ & Hc); [done|done|]. simpl in Hc.
  fold (findSpecialBuildings building_type tiles console) in Hc.
  fold hqs in Hc. fold console' in Hc.
  assert (length (zip_with mkAssertion hqs (drop 1 hqs)) = length hqs - 1)
    as Hlen.
  { rewrite length_zip_with, length_drop. lia. }
  split_and!.
  - done.
  - rewrite Hc, length_app, Hlen. done.
  - rewrite Hc. split.
    + intros Heq. apply (f_equal length) in Heq.
      rewrite length_app, Hlen in Heq. lia.
    + intros Hle.
      destruct (zip_with mkAssertion hqs (drop 1 hqs)) as [|a l] eqn:Hz;
        [by rewrite app_nil_r|].
      simpl in Hlen. lia.
Qed.

End FindSpecialBuildingsFacts.

Section VerifyBuildingTexturesFacts.
Context {Textures City : Type}.
Context (getBuildingTexture : string → Textures → City → bool).

(** X10 (one warning per building without a texture).  For every building
    for which [getBuildingTexture] finds nothing, and for no other,
    [verifyBuildingTextures] appends one warning naming it, in visiting
    order; the loop does not stop at the first one, and the console is left
    as it was exactly when every building has a texture. *)
Theorem verifyBuildingTextures_warnings (buildings : list string)
    (textures : Textures) (city : City) (console : list string) :
  let missing :=
    filter (λ b, getBuildingTexture b textures city = false) buildings in
  let console' :=
    verifyBuildingTextures getBuildingTexture buildings textures city console in
  console' =
    console ++ ((λ b, "Cannot find textures for building " +:+ b) <$> missing) ∧
  (console' = console ↔
     ∀ b, b ∈ buildings → getBuildingTexture b textures city = true).
Proof.
  intros missing console'. subst missing console'.
  assert (∀ c, verifyBuildingTextures getBuildingTexture buildings textures city c =
            c ++ ((λ b, "Cannot find textures for building " +:+ b) <$>
              filter (λ b, getBuildingTexture b textures city = false) buildings))
    as Hgen.
  { unfold verifyBuildingTextures.
    induction buildings as [|b bs IH]; intros c; simpl.
    - by rewrite app_nil_r.
    - rewrite IH. destruct (getBuildingTexture b textures city) eqn:Hb.
      + by rewrite filter_cons_False by (by rewrite Hb).
      + rewrite filter_cons_True by done. rewrite fmap_cons.
        by rewrite <- app_assoc. }
  split; [apply Hgen|]. rewrite Hgen. split.
  - intros Heq b Hb.
    destruct (getBuildingTexture b textures city) eqn:Hgb; [done|].
    assert (b ∈ filter (λ b, getBuildingTexture b textures city = false) buildings)
      as Hin by (by apply list_elem_of_filter).
    apply (f_equal length) in Heq. rewrite length_app, length_fmap in Heq.
    destruct (filter _ buildings); [by apply elem_of_nil in Hin|].
    simpl in Heq. lia.
  - intros Hall.
    assert (filter (λ b, getBuildingTexture b textures city = false) buildings = [])
      as ->.
    { destruct (filter _ buildings) as [|b l] eqn:Hf; [done|].
      assert (b ∈ filter (λ b, getBuildingTexture b textures city = false)
                    buildings) as Hin by (rewrite Hf; left).
      apply list_elem_of_filter in Hin as [Hfalse Hin].
      rewrite (Hall b Hin) in Hfalse. done. }
    by rewrite app_nil_r.
Qed.

End VerifyBuildingTexturesFacts.

End StartupFacts.

(** ** The once-a-second timer *)

Section TickerFacts.
Import Startup.
Context {GameState : Type}.
Context (tick : GameState → N) (tickEverySecond : GameState → GameState).

Lemma succ_div_5 (t : N) :
  (((t + 1) mod 5 =? 0) = true → (t + 1) / 5 = t / 5 + 1)%N ∧
  (((t + 1) mod 5 =? 0) = false → (t + 1) / 5 = t / 5)%N.
Proof.
  pose proof (N.div_mod t 5 ltac:(lia)) as Ht.
  pose proof (N.div_mod (t + 1) 5 ltac:(lia)) as Ht1.
  pose proof (N.mod_lt t 5 ltac:(lia)) as Hm.
  pose proof (N.mod_lt (t + 1) 5 ltac:(lia)) as Hm1.
  split; intros Hz; [apply N.eqb_eq in Hz|apply N.eqb_neq in Hz];
    generalize dependent (t / 5)%N; generalize dependent (t mod 5)%N;
    generalize dependent ((t + 1) / 5)%N;
    generalize dependent ((t + 1) mod 5)%N; intros; lia.
Qed.

(** X11 (the game is saved on every fifth tick).  If [tickEverySecond]
    advances [gameState.tick] by one, then after [n] firings of the interval
    the tick has advanced by [n] and [saveGame] has been called once for each
    multiple of five the tick has reached on the way, however the firings
    fall: [(tick + n) / 5 - tick / 5] times. *)
Theorem saves_on_every_fifth_tick (n : nat) (gs : GameState) (saves : nat) :
  (∀ g, tick (tickEverySecond g) = (tick g + 1)%N) →
  let r := seconds tick tickEverySecond n (gs, saves) in
  tick r.1 = (tick gs + N.of_nat n)%N ∧
  r.2 = saves + N.to_nat ((tick gs + N.of_nat n) / 5 - tick gs / 5).
Proof.
  intros Hstep. induction n as [|n [IHt IHs]].
  - simpl. split; [by rewrite N.add_0_r|].
    rewrite N.add_0_r, N.sub_diag. simpl. lia.
  - cbv zeta in *. unfold seconds in *. rewrite Nat.iter_succ.
    set (st := Nat.iter n _ _) in *.
    unfold every_second at 1. simpl.
    rewrite Hstep, IHt.
    replace (tick gs + N.of_nat (S n))%N with (tick gs + N.of_nat n + 1)%N
      by lia.
    split; [done|].
    destruct (succ_div_5 (tick gs + N.of_nat n)) as [Hyes Hno].
    pose proof (N.Div0.div_le_mono (tick gs) (tick gs + N.of_nat n) 5) as Hmono.
    destruct (_ =? 0)%N eqn:Hz.
    + rewrite (Hyes eq_refl), IHs. lia.
    + rewrite (Hno eq_refl), IHs. lia.
Qed.

End TickerFacts.

(* ===================================================================== *)
(** * The sprites of a TransportPool over its life                        *)
(* ===================================================================== *)

Section LifecycleFacts.
Import Pixi ObjectPool Lifecycle.

Implicit Types (st : State TransportPool.Fields Heap) (o : ObjId) (h : Heap).

Lemma TransportPool_allocate_reuse n st o :
  pick n (idle (this st)) = Some o →
  allocate n st =
    (o, mkState
          (mkPool (fields (this st)) ({[o]} ∪ active (this st))
             (idle (this st) ∖ {[o]}))
          (alter (set_alpha TransportPool.DefaultAlpha) o (world st))
          (calls st ++ [OnAllocate o])).
Proof. intros Hp. unfold allocate. rewrite Hp. reflexivity. Qed.

Lemma TransportPool_allocate_grow n st :
  idle (this st) = ∅ →
  allocate n st =
    (fresh (dom (world st)),
     mkState
       (mkPool (fields (this st)) ({[fresh (dom (world st))]} ∪ active (this st))
          (idle (this st)))
       (alter (set_alpha TransportPool.DefaultAlpha) (fresh (dom (world st)))
          (TransportPool.create_hook (this st) (world st)).2)
       (calls st ++ [Create (fresh (dom (world st)));
                     OnAllocate (fresh (dom (world st)))])).
Proof.
  intros He.
  assert (pick n (idle (this st)) = None) as Hp
    by (rewrite He; apply pick_empty).
  unfold allocate. rewrite Hp.
  change (create (this st) (world st))
    with (TransportPool.create_hook (this st) (world st)).
  destruct (TransportPool_create_dom (this st) (world st)) as (Ho & Ht & _).
  destruct (TransportPool.create_hook (this st) (world st)) as [[o p0] w0].
  simpl in *. subst o p0. reflexivity.
Qed.

Lemma TransportPool_release_active o st :
  o ∈ active (this st) →
  release o st =
    Released
      (mkState
         (mkPool (fields (this st)) (active (this st) ∖ {[o]})
            ({[o]} ∪ idle (this st)))
         (alter (set_alpha 0) o (world st))
         (calls st ++ [OnRelease o])).
Proof. intros Ha. unfold release. rewrite decide_True by done. reflexivity. Qed.

Lemma pool_run_reachable (start st : State TransportPool.Fields Heap) :
  reachable TransportPool.live start → pool_run start st →
  reachable TransportPool.live st.
Proof.
  intros Hs. induction 1 as [|n st _ IH|o st _ IH].
  - done.
  - by apply reachable_allocate.
  - by apply reachable_release.
Qed.

Section OnePool.
Context (texture : JsValue) (p : ObjId) (h0 : Heap) (c0 : Sprite).
Context (console : list string).
Hypothesis parent_exists : h0 !! p = Some c0.
Hypothesis texture_valid : instanceof_Texture texture = true.

Let start : State TransportPool.Fields Heap :=
  mkState (TransportPool.constructor texture p console).1 h0 [].

Lemma start_reachable : reachable TransportPool.live start.
Proof. apply (reachable_new _ (TransportPool.mkFields texture p) h0). Qed.

Lemma with_children_id (c : Sprite) : with_children (children c) c = c.
Proof. by destruct c. Qed.


(** The heap after an allocation that had to construct a sprite. *)
Lemma grown_lookup (this : Pool TransportPool.Fields) (h : Heap) (o' : ObjId) :
  fields this = TransportPool.mkFields texture p →
  p ≠ fresh (dom h) →
  alter (set_alpha TransportPool.DefaultAlpha) (fresh (dom h))
    (TransportPool.create_hook this h).2 !! o' =
    if decide (o' = fresh (dom h))
    then Some (pooled_sprite texture p TransportPool.DefaultAlpha)
    else if decide (o' = p) then push_child (fresh (dom h)) <$> h !! p
    else h !! o'.
Proof.
  intros Hf Hne. rewrite TransportPool_create_hook_unfold
    by (by rewrite Hf). cbv zeta.
  rewrite Hf. simpl. set (o := fresh (dom h)) in *.
  destruct (decide (o' = o)) as [->|Ho].
  - rewrite !lookup_alter_eq, lookup_alter_ne by done.
    by rewrite lookup_alter_eq, lookup_insert_eq.
  - rewrite !(lookup_alter_ne _ _ o o') by done.
    destruct (decide (o' = p)) as [->|Hp].
    + rewrite lookup_alter_eq, lookup_alter_ne, lookup_insert_ne by done. done.
    + by rewrite lookup_alter_ne, lookup_alter_ne, lookup_insert_ne.
Qed.




Lemma AttachInv_start : AttachInv texture p h0 c0 start.
Proof.
  split; simpl; unfold instances; simpl.
  - done.
  - by rewrite app_nil_r, with_children_id.
  - done.
  - set_solver.
Qed.

Lemma AttachInv_allocate n st :
  AttachInv texture p h0 c0 st → AttachInv texture p h0 c0 (allocate n st).2.
Proof.
  intros [Hf Hp Hold Hnew]. unfold instances in *.
  assert (p ∈ dom h0) as Hpdom by (apply elem_of_dom; by eexists).
  destruct (pick n (idle (this st))) as [o|] eqn:Hpick.
  - rewrite (TransportPool_allocate_reuse n st o Hpick). simpl.
    apply pick_elem_of in Hpick.
    assert (o ≠ p) as Hop by set_solver.
    split; simpl; unfold instances; simpl; rewrite ?created_app; simpl;
      rewrite ?app_nil_r.
    + done.
    + by rewrite lookup_alter_ne.
    + by rewrite dom_alter_L.
    + set_solver.
  - apply pick_None in Hpick.
    rewrite (TransportPool_allocate_grow n st Hpick). cbn [snd].
    set (o := fresh (dom (world st))) in *.
    assert (o ∉ dom (world st)) as Hfresh by apply is_fresh.
    assert (p ≠ o) as Hop by set_solver.
    pose proof (λ o', grown_lookup (this st) (world st) o' Hf Hop) as Hlook.
    assert (dom (alter (set_alpha TransportPool.DefaultAlpha) o
                   (TransportPool.create_hook (this st) (world st)).2) =
              {[o]} ∪ dom (world st)) as Hdom'
      by (rewrite dom_alter_L;
          by destruct (TransportPool_create_dom (this st) (world st))
            as (_ & _ & ->)).
    fold o in Hlook.
    set (w' := alter (set_alpha TransportPool.DefaultAlpha) o
                 (TransportPool.create_hook (this st) (world st)).2) in *.
    clearbody w'.
    split; cbn [this world calls fields active idle]; unfold instances;
      cbn [this world calls fields active idle]; rewrite ?created_app; simpl.
    + done.
    + rewrite Hlook.
      rewrite decide_False, decide_True by done. rewrite Hp. simpl.
      unfold push_child, with_children. simpl. by rewrite app_assoc.
    + rewrite Hdom'. set_solver.
    + set_solver.
Qed.

Lemma AttachInv_release o st :
  AttachInv texture p h0 c0 st →
  AttachInv texture p h0 c0 (outcome_state (release o st)).
Proof.
  intros HA.
  destruct (decide (o ∈ active (this st))) as [Hin|Hin];
    [|by rewrite (release_not_active o st Hin)].
  destruct HA as [Hf Hp Hold Hnew]. unfold instances in *.
  assert (p ∈ dom h0) as Hpdom by (apply elem_of_dom; by eexists).
  assert (o ≠ p) as Hop by set_solver.
  rewrite (TransportPool_release_active o st Hin). simpl.
  split; simpl; unfold instances; simpl; rewrite ?created_app; simpl;
    rewrite ?app_nil_r.
  - done.
  - by rewrite lookup_alter_ne.
  - by rewrite dom_alter_L.
  - apply elem_of_disjoint. intros a Ha Ha0.
    apply (elem_of_disjoint (active (this st) ∪ idle (this st)) (dom h0))
      with a; [done| |done].
    destruct (decide (a = o)); set_solver.
Qed.

Lemma pool_run_among_reachable st :
  pool_run_among p start st → reachable TransportPool.live st.
Proof.
  induction 1 as [|n st _ IH|o st _ IH|st h' _ IH Hdom _ _].
  - apply start_reachable.
  - by apply reachable_allocate.
  - by apply reachable_release.
  - by apply reachable_world.
Qed.

Lemma AttachInv_run st :
  pool_run_among p start st → AttachInv texture p h0 c0 st.
Proof.
  induction 1 as [|n st _ IH|o st _ IH|st h' _ IH Hdom Hsprites Hparent].
  - apply AttachInv_start.
  - by apply AttachInv_allocate.
  - by apply AttachInv_release.
  - destruct IH as [Hf Hp Hold Hnew]. split; simpl.
    + done.
    + by rewrite Hparent.
    + set_solver.
    + done.
Qed.

End OnePool.


(** X13 (each sprite is attached once).  Take a pool constructed with a
    valid texture and an existing parent container, and let other code run
    between the calls of [allocate] and [release]: it may create objects and
    change any object, but not the pool's sprites and not the parent
    container.  Then the parent container is as it was at construction
    except for its children: these are the children it had, followed by the
    sprites the pool constructed, each once, in construction order.  Handing
    out an idle sprite again never attaches it a second time. *)
Theorem parent_gains_constructed_sprites (texture : JsValue) (p : ObjId)
    (h0 : Heap) (c0 : Sprite) (console : list string) st :
  h0 !! p = Some c0 → instanceof_Texture texture = true →
  pool_run_among p
    (mkState (TransportPool.constructor texture p console).1 h0 []) st →
  world st !! p =
    Some (with_children (children c0 ++ created (calls st)) c0) ∧
  NoDup (created (calls st)) ∧
  (∀ o, o ∈ created (calls st) ↔ o ∈ instances (this st)).
Proof.
  intros Hp Hv Hrun.
  destruct (AttachInv_run texture p h0 c0 console Hp Hv st Hrun)
    as [_ Hpar _ _].
  destruct (reachable_Inv TransportPool.live st
              (pool_run_among_reachable texture p h0 console st Hrun))
    as [_ _ Hc Hn].
  split_and!; [done|done|].
  intros o. rewrite <- Hc. by rewrite elem_of_list_to_set.
Qed.

(** X14 ([allocate] and [release] touch one sprite, and the parent only to
    attach).  In any state of a pool whose texture is a [Texture], whatever
    other code did to the heap before: [allocate] changes no object other
    than the sprite it returns and the parent container, and not even the
    parent when it hands out an idle sprite; [release] changes no object
    other than the sprite it is given; and neither removes an object from
    the heap. *)
Theorem pool_leaves_other_objects st n o :
  instanceof_Texture (TransportPool._texture (fields (this st))) = true →
  (∀ o', o' ≠ (allocate n st).1 →
     o' ≠ TransportPool._parent (fields (this st)) →
     world (allocate n st).2 !! o' = world st !! o') ∧
  (idle (this st) ≠ ∅ → ∀ o', o' ≠ (allocate n st).1 →
     world (allocate n st).2 !! o' = world st !! o') ∧
  dom (world st) ⊆ dom (world (allocate n st).2) ∧
  (∀ o', o' ≠ o →
     world (outcome_state (release o st)) !! o' = world st !! o') ∧
  dom (world (outcome_state (release o st))) = dom (world st).
Proof.
  intros Hv. split_and!.
  - intros o' Ho Hp. destruct (pick n (idle (this st))) as [a|] eqn:Hpick.
    + rewrite (TransportPool_allocate_reuse n st a Hpick) in *. simpl in *.
      by rewrite lookup_alter_ne.
    + apply pick_None in Hpick.
      rewrite (TransportPool_allocate_grow n st Hpick) in *. simpl in Ho.
      cbn [snd world].
      rewrite (TransportPool_create_hook_unfold _ _ Hv). cbv zeta.
      cbn [snd]. rewrite !(lookup_alter_ne _ _ (fresh (dom (world st))) o')
        by done.
      by rewrite lookup_alter_ne, lookup_alter_ne, lookup_insert_ne.
  - intros Hne o' Ho. destruct (pick_is_Some n _ Hne) as [a Hpick].
    rewrite (TransportPool_allocate_reuse n st a Hpick) in *. simpl in *.
    by rewrite lookup_alter_ne.
  - destruct (pick n (idle (this st))) as [a|] eqn:Hpick.
    + rewrite (TransportPool_allocate_reuse n st a Hpick). simpl.
      by rewrite dom_alter_L.
    + apply pick_None in Hpick.
      rewrite (TransportPool_allocate_grow n st Hpick). cbn [snd world].
      rewrite dom_alter_L.
      destruct (TransportPool_create_dom (this st) (world st)) as (_ & _ & ->).
      set_solver.
  - intros o' Ho. destruct (decide (o ∈ active (this st))) as [Hin|Hin].
    + rewrite (TransportPool_release_active o st Hin). simpl.
      by rewrite lookup_alter_ne.
    + by rewrite (release_not_active o st Hin).
  - destruct (decide (o ∈ active (this st))) as [Hin|Hin].
    + rewrite (TransportPool_release_active o st Hin). simpl.
      by rewrite dom_alter_L.
    + by rewrite (release_not_active o st Hin).
Qed.


End LifecycleFacts.

(* ===================================================================== *)
(** * The lifecycle properties on the concrete scene                      *)
(* ===================================================================== *)

Section OnScene.
Import Pixi ObjectPool Lifecycle Hook HookMore Startup Scenario Scene.

Lemma Scenario_world0_wf : wf_World world0.
Proof. unfold wf_World, world0. simpl. repeat constructor. Qed.

Lemma Scene_events0_wf : wf_EventWorld events0.
Proof.
  intros ev e He. unfold events0 in *. simpl in *.
  destruct (decide (ev = 1%positive)) as [->|Hne1].
  - rewrite lookup_insert_eq in He. injection He as <-. repeat constructor.
  - rewrite lookup_insert_ne in He by done.
    destruct (decide (ev = 2%positive)) as [->|Hne2].
    + rewrite lookup_singleton_eq in He. injection He as <-.
      repeat constructor.
    + by rewrite lookup_singleton_ne in He.
Qed.

Lemma observe_rerender_one_listener_witness :
  wf_World world0 ∧
  listeners
    (event
       (observe_again 1%positive (λ g : nat, g) [8; 9]
          (observe 1%positive (λ g : nat, g) None 7 world0).1.2
          (observe 1%positive (λ g : nat, g) None 7 world0).2).2)
  = [2; 4; 7]%positive.
Proof.
  split; [exact Scenario_world0_wf|].
  destruct (observe_rerender_one_listener 1%positive (λ g : nat, g) 7 [8; 9]
              world0 Scenario_world0_wf) as (l & Hl & _ & _ & Hlatest & _).
  assert (l = 7%positive) as -> by (simpl in Hlatest; lia).
  exact Hl.
Defined.

Lemma refresh_rerender_one_listener_witness :
  wf_EventWorld events0 ∧
  events events0 !! 2%positive = Some (mkEvent [4]%positive) ∧
  ∃ l, events
         (refresh_again 3 2%positive
            (refreshOnTypedEvent 2%positive None events0).1
            (refreshOnTypedEvent 2%positive None events0).2).2 !! 2%positive
       = Some (mkEvent ([4]%positive ++ [l])).
Proof.
  assert (events events0 !! 2%positive = Some (mkEvent [4]%positive)) as He
    by reflexivity.
  split; [exact Scene_events0_wf|]. split; [exact He|].
  destruct (refresh_rerender_one_listener 3 2%positive events0 _
              Scene_events0_wf He) as (l & Hl & _).
  exists l. exact Hl.
Defined.

Lemma Scene_cell0_subscription : subscription 1%positive 3%positive cell0.
Proof. split; [reflexivity|]. intros es. reflexivity. Qed.

Lemma refresh_switches_event_witness :
  events (refreshOnTypedEvent 2%positive (Some refresher0) events0).2
    !! 1%positive = Some (off 3%positive (mkEvent [2; 3]%positive)) ∧
  events (refreshOnTypedEvent 2%positive (Some refresher0) events0).2
    !! 2%positive = Some (mkEvent ([4]%positive ++ [5%positive])).
Proof.
  assert (1%positive ≠ 2%positive) as Hne by discriminate.
  destruct (refresh_switches_event 1%positive 2%positive events0 refresher0
              3%positive cell0 (mkEvent [2; 3]%positive) (mkEvent [4]%positive)
              Scene_events0_wf eq_refl Scene_cell0_subscription Hne
              eq_refl eq_refl) as (H0 & _ & H1 & _).
  split; [exact H0|exact H1].
Defined.

Lemma useTypedEvent_moves_subscription_witness :
  ∃ e', (useTypedEvent 1%positive 7%positive (Some cell0) (events events0)).2
          !! 1%positive = Some e' ∧ 7%positive ∈ listeners e'.
Proof.
  assert ((1%positive, 7%positive) ≠ (1%positive, 3%positive)) as Hne
    by discriminate.
  destruct (useTypedEvent_moves_subscription 1%positive 1%positive
              3%positive 7%positive cell0 (events events0)
              (mkEvent [2; 3]%positive) (mkEvent [2; 3]%positive)
              Scene_cell0_subscription eq_refl eq_refl) as (_ & Hmove).
  destruct (Hmove Hne) as (_ & Hnew & _). exact Hnew.
Defined.

Lemma Scene_shortcut_bound :
  bound "TechPageUnlockTech" 3%positive [] (Some shortcut_cell0) registry0.
Proof.
  split; [|reflexivity]. exists shortcut_cell0.
  split; [reflexivity|]. split; [reflexivity|]. intros r. reflexivity.
Qed.

Lemma useShortcut_latest_wins_witness :
  (useShortcut "TechPageGoBackToCity" 9%positive [] (Some shortcut_cell0)
     registry0).2 !! "TechPageUnlockTech" = Some None.
Proof.
  destruct (useShortcut_latest_wins "TechPageUnlockTech" "TechPageGoBackToCity"
              3%positive 9%positive [] [] (Some shortcut_cell0) registry0
              Scene_shortcut_bound) as (_ & Hold & _).
  apply Hold. discriminate.
Defined.

Lemma TechPage_shortcuts_current_witness :
  (TechPage_shortcuts "Fire" 10%positive 12%positive None registry0).2
    !! "TechPageUnlockTech" = Some (Some 12%positive).
Proof.
  destruct (TechPage_shortcuts_current "Fire" "Fire" 10%positive 12%positive
              10%positive 12%positive None registry0 (or_introl eq_refl))
    as (_ & [_ Hun] & _).
  exact Hun.
Defined.

Lemma saves_on_every_fifth_tick_witness :
  (∀ g : N, N.succ g = (g + 1)%N) ∧
  (seconds (λ g : N, g) N.succ 12 (3%N, 0)).2 = 3.
Proof.
  assert (∀ g : N, N.succ g = (g + 1)%N) as Hstep by (intros g; lia).
  split; [exact Hstep|].
  destruct (saves_on_every_fifth_tick (λ g : N, g) N.succ 12 3%N 0 Hstep)
    as [_ Hs].
  exact Hs.
Defined.




Lemma Scene_pool1_then_run : pool_run_among 1 pool0 pool1_then.
Proof.
  unfold pool1_then. apply among_allocate.
  unfold pool1_other. apply among_other.
  - unfold pool1. apply among_allocate. apply among_start.
  - rewrite dom_insert_L. set_solver.
  - intros o Ho.
    assert (instances (this pool1) = {[2%positive]}) as Hinst
      by (vm_compute; reflexivity).
    rewrite Hinst in Ho. apply elem_of_singleton in Ho as ->.
    by rewrite lookup_insert_ne.
  - by rewrite lookup_insert_ne.
Qed.

Lemma parent_gains_constructed_sprites_witness :
  world pool1_then !! 1%positive =
    Some (with_children ([] ++ created (calls pool1_then))
            (default_Sprite JsUndefined)) ∧
  created (calls pool1_then) = [2; 10]%positive.
Proof.
  destruct (parent_gains_constructed_sprites transport_texture 1 stage
              (default_Sprite JsUndefined) [] pool1_then eq_refl eq_refl
              Scene_pool1_then_run) as (Hparent & _).
  split; [exact Hparent|]. vm_compute. reflexivity.
Defined.

Lemma pool_leaves_other_objects_witness :
  instanceof_Texture (TransportPool._texture (fields (this pool3))) = true ∧
  dom (world pool3) ⊆ dom (world (allocate 0 pool3).2) ∧
  dom (world (outcome_state (release B pool3))) = dom (world pool3).
Proof.
  assert (instanceof_Texture (TransportPool._texture (fields (this pool3)))
            = true) as Hv by reflexivity.
  split; [exact Hv|].
  destruct (pool_leaves_other_objects pool3 0 B Hv)
    as (_ & _ & Hdom & _ & Hrel).
  split; [exact Hdom|exact Hrel].
Defined.


End OnScene.
